(** * gentle-pong: the oscillator bank, the DSP chain and the chord mixer

    A shallow embedding of [synth.py], [dsp.py] and the mixing part of
    [generate.py].

    Numbers.  Python's [float] is idealised as a real number ([R]): there is
    no rounding, no overflow, no NaN and no infinity.  Python's [int] is [Z].
    [int(x)] truncates toward zero.  Every division whose divisor is not a
    literal is checked and raises [ZeroDivisionError] on a zero divisor, as
    Python does; every list subscript is checked and raises [IndexError]
    out of range, with Python's wrap-around for negative subscripts. *)

From Stdlib Require Import Reals Lra Lia ZArith List Bool.
From stdpp Require Import base list list_numbers.
From Equations Require Import Equations.
Import ListNotations.
Local Open Scope R_scope.

(** ** Python primitives *)

Module Py.

(** The exceptions the modelled code can raise.  [NotReal] is not an
    exception: it marks a run in which [**] produces a complex number
    (negative base, fractional exponent), which this real-valued model does
    not follow any further. *)
Inductive exn : Type :=
| ValueError
| ZeroDivisionError
| IndexError
| NotReal.

Inductive result (A : Type) : Type :=
| Ok (a : A)
| Raise (e : exn).
Arguments Ok {A} a.
Arguments Raise {A} e.

Definition bind {A B : Type} (m : result A) (k : A -> result B) : result B :=
  match m with
  | Ok a => k a
  | Raise e => Raise e
  end.

Notation "x <- m ;; k" := (bind m (fun x => k))
  (at level 20, m at level 99, k at level 200, only parsing).

Fixpoint mapM {A B : Type} (f : A -> result B) (l : list A) : result (list B) :=
  match l with
  | [] => Ok []
  | x :: l' => y <- f x ;; ys <- mapM f l' ;; Ok (y :: ys)
  end.

(** A [for] loop that threads a state and stops at the first exception. *)
Fixpoint foldM {A S : Type} (f : S -> A -> result S) (s : S) (l : list A)
  : result S :=
  match l with
  | [] => Ok s
  | x :: l' => s' <- f s x ;; foldM f s' l'
  end.

#[global] Instance Rlt_decision (x y : R) : Decision (x < y) := Rlt_dec x y.
#[global] Instance Rle_decision (x y : R) : Decision (x <= y) := Rle_dec x y.
#[global] Instance Rgt_decision (x y : R) : Decision (x > y) := Rgt_dec x y.
#[global] Instance Req_decision : EqDecision R := Req_dec_T.

(** [int(x)]: truncation toward zero. *)
Definition int (x : R) : Z :=
  if decide (0 <= x) then Zfloor x else Zceil x.

(** [x / y] with a divisor that is not a literal. *)
Definition div (x y : R) : result R :=
  if decide (y = 0) then Raise ZeroDivisionError else Ok (x / y).

Notation "x /? y" := (div x y) (at level 40, left associativity).

(** [x ** y] on floats.  For a positive base it is [exp (y * ln x)]. *)
Definition float_pow (x y : R) : result R :=
  if decide (0 < x) then Ok (Rpower x y)
  else if decide (y = IZR (int y)) then
    if decide (x = 0 /\ y < 0) then Raise ZeroDivisionError
    else Ok (powerRZ x (int y))
  else if decide (x = 0) then
    if decide (y < 0) then Raise ZeroDivisionError else Ok 0
  else Raise NotReal.

(** Two-argument [min(a, b)] and [max(a, b)]: the first argument is kept
    unless the second is strictly smaller (larger). *)
Definition min2 (a b : R) : R := if decide (b < a) then b else a.
Definition max2 (a b : R) : R := if decide (b > a) then b else a.

(** [max(iterable)]: [ValueError] on an empty iterable. *)
Definition max_of (l : list R) : result R :=
  match l with
  | [] => Raise ValueError
  | x :: l' => Ok (foldl max2 x l')
  end.

(** [range(n)] is [seqZ 0 n]; [enumerate(l)] pairs each item with its
    position. *)
Fixpoint enumerate_from {A : Type} (k : Z) (l : list A) : list (Z * A) :=
  match l with
  | [] => []
  | x :: l' => (k, x) :: enumerate_from (k + 1) l'
  end.

Definition enumerate {A : Type} (l : list A) : list (Z * A) :=
  enumerate_from 0 l.

Definition len {A : Type} (l : list A) : Z := Z.of_nat (length l).

(** The position a subscript [k] denotes in [l]: [k] itself when
    [0 <= k < len l], [k + len l] when [-len l <= k < 0], [IndexError]
    otherwise. *)
Definition position {A : Type} (l : list A) (k : Z) : result nat :=
  if decide (0 <= k < len l)%Z then Ok (Z.to_nat k)
  else if decide (- len l <= k < 0)%Z then Ok (Z.to_nat (k + len l))
  else Raise IndexError.

(** [l[k]] *)
Definition getitem (l : list R) (k : Z) : result R :=
  i <- position l k ;;
  match l !! i with
  | Some x => Ok x
  | None => Raise IndexError
  end.

(** [l[k] = v] *)
Definition setitem (l : list R) (k : Z) (v : R) : result (list R) :=
  i <- position l k ;; Ok (<[i := v]> l).

(** [l[k] += v] *)
Definition additem (l : list R) (k : Z) (v : R) : result (list R) :=
  x <- getitem l k ;; setitem l k (x + v).

(** [l[k] *= v] *)
Definition mulitem (l : list R) (k : Z) (v : R) : result (list R) :=
  x <- getitem l k ;; setitem l k (x * v).

(** [[0.0] * n]: empty when [n] is negative. *)
Definition zeros (n : Z) : list R := replicate (Z.to_nat n) 0.

(** [round(x)] as the specification uses it: the nearest integer, a tie
    going to the even neighbour.  The code never calls it. *)
Definition round (x : R) : Z :=
  let f := Zfloor x in
  if decide (x - IZR f < 1 / 2) then f
  else if decide (x - IZR f > 1 / 2) then (f + 1)%Z
  else if Z.even f then f else (f + 1)%Z.

End Py.
Import Py.

(** ** synth.py *)

Module Synth.

(** Cosine fade-out over the last 15% of a note. *)
Definition _note_fadeout (i frames : Z) : result R :=
  let fade_start := int (IZR frames * 0.85) in
  if decide (i >= fade_start)%Z then
    t <- IZR (i - fade_start) /? IZR (frames - fade_start) ;;
    Ok (0.5 * (1 + cos (PI * t)))
  else Ok 1.

(** Glockenspiel: sharp attack, exponential decay, metallic partials. *)
Definition glockenspiel (freq duration_ms volume sr : R) : result (list R) :=
  let frames := int (sr * duration_ms / 1000) in
  let partials := [(1, 1); (2.76, 0.45); (5.4, 0.20); (8.93, 0.08)] in
  let decay_rates := [4; 6; 10; 16] in
  let attack_frames := int (sr * 0.002) in
  mapM (fun i : Z =>
    t <- IZR i /? sr ;;
    let s := foldl (fun s '((ratio, amp), dr) =>
                 s + amp * sin (2 * PI * freq * ratio * t) * exp (- dr * t))
               0 (zip partials decay_rates) in
    s <- (if decide (i < attack_frames)%Z
          then r <- IZR i /? IZR attack_frames ;; Ok (s * r)
          else Ok s) ;;
    g <- _note_fadeout i frames ;;
    Ok (s * volume * g)) (seqZ 0 frames).

(** Simple sine tone with fade in/out. *)
Definition sine_tone (freq duration_ms volume fade_ms sr : R)
  : result (list R) :=
  let frames := int (sr * duration_ms / 1000) in
  let fade_frames := int (sr * fade_ms / 1000) in
  mapM (fun i : Z =>
    t <- IZR i /? sr ;;
    let s := sin (2 * PI * freq * t) * volume in
    s <- (if decide (i < fade_frames)%Z
          then r <- IZR i /? IZR fade_frames ;; Ok (s * r)
          else Ok s) ;;
    s <- (if decide (i > frames - fade_frames)%Z
          then r <- IZR (frames - i) /? IZR fade_frames ;; Ok (s * r)
          else Ok s) ;;
    Ok s) (seqZ 0 frames).

(** Marimba-like: warm, fewer inharmonic partials, rounder attack. *)
Definition marimba (freq duration_ms volume sr : R) : result (list R) :=
  let frames := int (sr * duration_ms / 1000) in
  let partials := [(1, 1); (4, 0.30); (9.2, 0.08)] in
  let decay_rates := [3.5; 7; 14] in
  let attack_frames := int (sr * 0.004) in
  mapM (fun i : Z =>
    t <- IZR i /? sr ;;
    let s := foldl (fun s '((ratio, amp), dr) =>
                 s + amp * sin (2 * PI * freq * ratio * t) * exp (- dr * t))
               0 (zip partials decay_rates) in
    s <- (if decide (i < attack_frames)%Z
          then r <- IZR i /? IZR attack_frames ;; Ok (s * r)
          else Ok s) ;;
    g <- _note_fadeout i frames ;;
    Ok (s * volume * g)) (seqZ 0 frames).

(** Soft ambient pad: slow attack, two detuned voices and a quiet octave,
    long decay; the fade over the last 15% of the note is written inline. *)
Definition ambient (freq duration_ms volume sr : R) : result (list R) :=
  let frames := int (sr * duration_ms / 1000) in
  let attack_ms := 120 in
  let attack_frames := int (sr * attack_ms / 1000) in
  let decay_rate := 0.5 in
  let detune := 1.5 in
  let f1 := freq - detune in
  let f2 := freq + detune in
  let f_oct := freq * 2 in
  let fade_start := int (IZR frames * 0.85) in
  let fade_len := (frames - fade_start)%Z in
  mapM (fun i : Z =>
    t <- IZR i /? sr ;;
    let env := exp (- decay_rate * t) in
    env <- (if decide (i < attack_frames)%Z
            then r <- (PI * IZR i) /? IZR attack_frames ;;
                 Ok (env * (0.5 * (1 - cos r)))
            else Ok env) ;;
    env <- (if decide (i >= fade_start)%Z
            then ft <- IZR (i - fade_start) /? IZR fade_len ;;
                 Ok (env * (0.5 * (1 + cos (PI * ft))))
            else Ok env) ;;
    let s := 0 in
    let s := s + 0.5 * sin (2 * PI * f1 * t) in
    let s := s + 0.5 * sin (2 * PI * f2 * t) in
    let s := s + 0.12 * sin (2 * PI * f_oct * t) in
    Ok (s * env * volume)) (seqZ 0 frames).

(** Singing bowl: slow attack, harmonic partials, very long ring.  The
    source calls the amplitude modulation [mod]; it is [wobble] here. *)
Definition bowl (freq duration_ms volume sr : R) : result (list R) :=
  let frames := int (sr * duration_ms / 1000) in
  let attack_ms := 80 in
  let attack_frames := int (sr * attack_ms / 1000) in
  let partials := [(1, 1, 1.2); (2, 0.35, 1.8); (3.01, 0.15, 2.5);
                   (4.98, 0.06, 3.5)] in
  mapM (fun i : Z =>
    t <- IZR i /? sr ;;
    att <- (if decide (i < attack_frames)%Z
            then r <- (PI * IZR i) /? IZR attack_frames ;;
                 Ok (0.5 * (1 - cos r))
            else Ok 1) ;;
    let s := foldl (fun s '(ratio, amp, dr) =>
                 let wobble := 1 + 0.06 * sin (2 * PI * 4.1 * t) in
                 s + amp * sin (2 * PI * freq * ratio * t) * exp (- dr * t) * wobble)
               0 partials in
    g <- _note_fadeout i frames ;;
    Ok (s * att * volume * g)) (seqZ 0 frames).

End Synth.

(** ** dsp.py *)

Module Dsp.

(** One pass of the body of [for _ in range(poles)]: a fresh buffer of
    zeros, the first sample, then the one-pole recursion written by
    subscript. *)
Definition lowpass_stage (alpha : R) (buf : list R) : result (list R) :=
  let out := zeros (len buf) in
  b0 <- getitem buf 0 ;;
  out <- setitem out 0 (b0 * alpha) ;;
  foldM (fun out i =>
    p <- getitem out (i - 1) ;;
    b <- getitem buf i ;;
    q <- getitem out (i - 1) ;;
    setitem out i (p + alpha * (b - q))) out (seqZ 1 (len buf - 1)).

(** Multi-pole IIR lowpass filter. *)
Definition lowpass (samples : list R) (cutoff_hz sr : R) (poles : Z)
  : result (list R) :=
  rc <- 1 /? (2 * PI * cutoff_hz) ;;
  dt <- 1 /? sr ;;
  alpha <- dt /? (rc + dt) ;;
  foldM (fun buf _ => lowpass_stage alpha buf) samples (seqZ 0 poles).

(** The inner loop of [reverb]:
    [for i, s in enumerate(samples): out[i + d] += s * atten]. *)
Definition add_delayed (samples : list R) (d : Z) (atten : R) (out : list R)
  : result (list R) :=
  foldM (fun out '(i, s) => additem out (i + d) (s * atten)) out
    (enumerate samples).

(** Multi-tap delay reverb.  The list of delays is passed explicitly; the
    source's [delays_ms=None] stands for [[23, 53, 89, 131, 173]]. *)
Definition reverb (samples : list R) (sr decay : R) (delays_ms : list R)
  (tail_s : R) : result (list R) :=
  longest <- max_of delays_ms ;;
  let max_delay := int (sr * longest / 1000) in
  let out := zeros (len samples + max_delay + int (sr * tail_s)) in
  out <- foldM (fun out '(i, s) => additem out i s) out (enumerate samples) ;;
  foldM (fun out d_ms =>
    let d := int (sr * d_ms / 1000) in
    first <- getitem delays_ms 0 ;;
    e <- d_ms /? first ;;
    atten <- float_pow decay e ;;
    add_delayed samples d atten out) out delays_ms.

(** Normalize to target peak amplitude. *)
Definition normalize (samples : list R) (peak : R) : result (list R) :=
  m <- max_of (map Rabs samples) ;;
  let mx := if decide (m = 0) then 1 else m in
  if decide (mx > peak) then mapM (fun s => (s * peak) /? mx) samples
  else Ok samples.

(** [out[-chunk:]] and [out[:-chunk]] for a block size [chunk].  [-0] is
    [0], so with [chunk = 0] the first is the whole list and the second is
    empty; a block longer than the list is clipped to the list. *)
Definition last_chunk (chunk : nat) (out : list R) : list R :=
  if decide (chunk = 0%nat) then out else drop (length out - chunk) out.

Definition drop_last (chunk : nat) (out : list R) : list R :=
  if decide (chunk = 0%nat) then [] else take (length out - chunk) out.

(** [all(abs(s) < threshold for s in block)] *)
Definition silent (threshold : R) (block : list R) : bool :=
  forallb (fun s => bool_decide (Rabs s < threshold)) block.

(** The guard of the [while] loop; [and] does not evaluate its second
    operand when the first is false. *)
Definition trim_guard (threshold : R) (chunk : nat) (out : list R) : bool :=
  bool_decide (chunk < length out)%nat && silent threshold (last_chunk chunk out).

(** The [while] loop of [trim_silence]. *)
Equations trim_loop (threshold : R) (chunk : nat) (out : list R) : list R
  by wf (length out) lt :=
trim_loop threshold chunk out with decide (trim_guard threshold chunk out = true) := {
  | left H => trim_loop threshold chunk (drop_last chunk out)
  | right _ => out }.
Next Obligation.
  unfold trim_guard in H. apply andb_prop in H as [H _].
  apply bool_decide_eq_true in H. unfold drop_last.
  destruct (decide (chunk = 0%nat)); simpl; [lia |].
  rewrite length_take. lia.
Qed.

(** Trim trailing silence.  [chunk] is a block size, a natural number. *)
Definition trim_silence (samples : list R) (threshold : R) (chunk : nat)
  : list R :=
  trim_loop threshold chunk samples.

(** Long cosine fade-out and silent padding on both ends. *)
Definition fade_out (samples : list R) (fade_ms sr : R) : result (list R) :=
  let pad := zeros (int (sr * 0.05)) in
  let fade_frames := Z.min (int (sr * fade_ms / 1000)) (len samples) in
  let out := samples in
  let start := (len out - fade_frames)%Z in
  out <- foldM (fun out i =>
    t <- IZR i /? IZR fade_frames ;;
    mulitem out (start + i) (0.5 * (1 + cos (PI * t)))) out
    (seqZ 0 fade_frames) ;;
  Ok (pad ++ out ++ pad).

(** One sample of [to_int16]. *)
Definition quantize (s : R) : Z := int (max2 (-1) (min2 1 s) * 32767).

(** Convert float samples to int16. *)
Definition to_int16 (samples : list R) : list Z := map quantize samples.

End Dsp.

(** ** generate.py: the DSP chain and the chord mixer *)

Module Generate.

Definition SR : R := 44100.
Definition LOWPASS_HZ : R := 1800.
Definition LOWPASS_POLES : Z := 3.
Definition REVERB_DECAY : R := 0.5.
Definition REVERB_DELAYS : list R := [41; 89; 149; 211; 283; 367; 449].

(** The names of [SYNTHS]. *)
Inductive instrument : Type :=
| Glockenspiel
| Sine
| Marimba
| Ambient
| Bowl.

(** [SYNTHS[name](freq, duration_ms, volume, sr=sr)]; [sine_tone] keeps its
    default [fade_ms=60]. *)
Definition synthesize (name : instrument) (freq duration_ms volume sr : R)
  : result (list R) :=
  match name with
  | Glockenspiel => Synth.glockenspiel freq duration_ms volume sr
  | Sine => Synth.sine_tone freq duration_ms volume 60 sr
  | Marimba => Synth.marimba freq duration_ms volume sr
  | Ambient => Synth.ambient freq duration_ms volume sr
  | Bowl => Synth.bowl freq duration_ms volume sr
  end.

(** Apply the DSP chain; [reverb] keeps its default [tail_s=1.5] and
    [trim_silence] its defaults [threshold=0.0001], [chunk=200]. *)
Definition process (samples : list R) : result (list Z) :=
  s <- Dsp.lowpass samples LOWPASS_HZ SR LOWPASS_POLES ;;
  s <- Dsp.reverb s SR REVERB_DECAY REVERB_DELAYS 1.5 ;;
  let s := Dsp.trim_silence s 0.0001 200 in
  s <- Dsp.fade_out s 200 SR ;;
  s <- Dsp.normalize s 0.9 ;;
  Ok (Dsp.to_int16 s).

(** [max(len(v) for v in voices)] *)
Definition max_len (voices : list (list R)) : result Z :=
  match voices with
  | [] => Raise ValueError
  | v :: vs => Ok (foldl (fun m w => if decide (len w > m)%Z then len w else m)
                     (len v) vs)
  end.

(** [for i, s in enumerate(voice): mixed[i] += s] *)
Definition add_voice (mixed voice : list R) : result (list R) :=
  foldM (fun mixed '(i, s) => additem mixed i s) mixed (enumerate voice).

(** The part of [gen_chord] that builds [mixed], for a synthesis function
    [synth_fn] called as [synth_fn(f, duration_ms, per_voice, sr=SR)]. *)
Definition chord_mix (synth_fn : R -> R -> R -> R -> result (list R))
  (freqs : list R) (duration_ms volume : R) : result (list R) :=
  per_voice <- volume /? IZR (len freqs) ;;
  voices <- mapM (fun f => synth_fn f duration_ms per_voice SR) freqs ;;
  n <- max_len voices ;;
  foldM add_voice (zeros n) voices.

(** [gen_chord] up to the file system: the int16 samples handed to
    [write_wav]. *)
Definition gen_chord (synth_fn : R -> R -> R -> R -> result (list R))
  (freqs : list R) (duration_ms volume : R) : result (list Z) :=
  mixed <- chord_mix synth_fn freqs duration_ms volume ;;
  process mixed.

(** [l[k]] for a list of any items. *)
Definition item {A : Type} (l : list A) (k : Z) : result A :=
  i <- position l k ;;
  match l !! i with
  | Some x => Ok x
  | None => Raise IndexError
  end.

(** [gen_single] up to the file system: the int16 samples handed to
    [write_wav]. *)
Definition gen_single (synth_fn : R -> R -> R -> R -> result (list R))
  (freq duration_ms volume : R) : result (list Z) :=
  samples <- synth_fn freq duration_ms volume SR ;;
  process samples.

(** The inner loop of [gen_sequence]:
    [for i, s in enumerate(ns): if i + offset < len(mixed): mixed[i + offset] += s]. *)
Definition add_note (mixed : list R) (offset : Z) (ns : list R)
  : result (list R) :=
  foldM (fun mixed '(i, s) =>
    if decide (i + offset < len mixed)%Z then additem mixed (i + offset) s
    else Ok mixed) mixed (enumerate ns).

(** The part of [gen_sequence] that builds [mixed]; [//] is floor
    division. *)
Definition sequence_mix (synth_fn : R -> R -> R -> R -> result (list R))
  (notes : list R) (gap_ms duration_ms volume : R) : result (list R) :=
  let gap_frames := int (SR * gap_ms / 1000) in
  note_samples <- mapM (fun f => synth_fn f duration_ms volume SR) notes ;;
  first <- item note_samples 0 ;;
  let stride := (Z.max (len first / 3) 1 + gap_frames)%Z in
  final <- item note_samples (-1) ;;
  let total := (stride * (len notes - 1) + len final + int (SR * 0.5))%Z in
  let mixed := zeros total in
  r <- foldM (fun (st : list R * Z) ns =>
         let '(mixed, offset) := st in
         mixed <- add_note mixed offset ns ;;
         Ok (mixed, (offset + stride)%Z)) (mixed, 0%Z) note_samples ;;
  Ok (fst r).

(** [gen_sequence] up to the file system. *)
Definition gen_sequence (synth_fn : R -> R -> R -> R -> result (list R))
  (notes : list R) (gap_ms duration_ms volume : R) : result (list Z) :=
  mixed <- sequence_mix synth_fn notes gap_ms duration_ms volume ;;
  process mixed.

End Generate.

(** ** wav_utils.py: the frame data of a WAV file

    The container header, the file system and the SHA-256 digest belong to
    Python's libraries; what is modelled is the frame data that
    [write_wav] hands to [writeframes] and that [build_preview] reads
    back.  A byte is an integer from 0 to 255. *)

Module Wav.

(** The values of a signed 16-bit sample and of a byte. *)
Definition int16 (v : Z) : Prop := (-32768 <= v <= 32767)%Z.
Definition byte_value (b : Z) : Prop := (0 <= b < 256)%Z.

(** The outcome of [struct.pack] and [struct.unpack]. *)
Inductive outcome (A : Type) : Type :=
| Done (a : A)
| StructError.
Arguments Done {A} a.
Arguments StructError {A}.

(** [struct.pack('<h', v)]: two bytes, low byte first, two's complement;
    [struct.error] unless -32768 <= v <= 32767. *)
Definition pack_h (v : Z) : outcome (list Z) :=
  if decide (-32768 <= v <= 32767)%Z
  then Done [(v mod 256)%Z; ((v mod 65536) / 256)%Z]
  else StructError.

(** [struct.pack(f'<{len(int_samples)}h', *int_samples)] *)
Fixpoint pack (int_samples : list Z) : outcome (list Z) :=
  match int_samples with
  | [] => Done []
  | v :: rest =>
      match pack_h v, pack rest with
      | Done b, Done bs => Done (b ++ bs)
      | _, _ => StructError
      end
  end.

(** The value of two bytes read as ['<h']. *)
Definition unpack_h (lo hi : Z) : Z :=
  let u := (lo + 256 * hi)%Z in
  if decide (u >= 32768)%Z then (u - 65536)%Z else u.

Fixpoint unpack_pairs (raw : list Z) : list Z :=
  match raw with
  | lo :: hi :: rest => unpack_h lo hi :: unpack_pairs rest
  | _ => []
  end.

(** [struct.unpack(f'<{n}h', raw)]: [struct.error] unless [raw] has
    exactly [2 * n] bytes. *)
Definition unpack (n : Z) (raw : list Z) : outcome (list Z) :=
  if decide (len raw = 2 * n)%Z then Done (unpack_pairs raw) else StructError.

(** The frame data [write_wav(path, int_samples, sr)] writes. *)
Definition write_wav (int_samples : list Z) : outcome (list Z) :=
  pack int_samples.


End Wav.

(** ** Closed forms used in the statements

    These definitions are not translated from a function of their own: they
    give, without exceptions, the value of one sample as the loops of
    [synth.py] compute it, split into the sample before the release and the
    release gain, and what one tap of [reverb] adds to one output sample. *)

Module Closed.
Import Generate.

(** The gain [_note_fadeout(i, frames)] returns; [ambient] computes the
    same expression inline. *)
Definition release_gain (i frames : Z) : R :=
  let fade_start := int (IZR frames * 0.85) in
  if decide (i >= fade_start)%Z then
    0.5 * (1 + cos (PI * (IZR (i - fade_start) / IZR (frames - fade_start))))
  else 1.

(** The sum over [zip(partials, decay_rates)]. *)
Definition partial_sum (table : list (R * R * R)) (freq t : R) : R :=
  foldl (fun s '((ratio, amp), dr) =>
    s + amp * sin (2 * PI * freq * ratio * t) * exp (- dr * t)) 0 table.

Definition linear_attack (attack_frames i : Z) (s : R) : R :=
  if decide (i < attack_frames)%Z then s * (IZR i / IZR attack_frames) else s.

Definition cosine_attack (attack_frames i : Z) : R :=
  if decide (i < attack_frames)%Z
  then 0.5 * (1 - cos (PI * IZR i / IZR attack_frames))
  else 1.

(** Sample [i] of an instrument before its release gain is applied.  For
    [Sine], which has no such gain, this is the sample before the linear
    release. *)
Definition unreleased (name : instrument) (freq volume sr : R) (i : Z) : R :=
  let t := IZR i / sr in
  match name with
  | Glockenspiel =>
      linear_attack (int (sr * 0.002)) i
        (partial_sum [(1, 1, 4); (2.76, 0.45, 6); (5.4, 0.20, 10);
                      (8.93, 0.08, 16)] freq t) * volume
  | Marimba =>
      linear_attack (int (sr * 0.004)) i
        (partial_sum [(1, 1, 3.5); (4, 0.30, 7); (9.2, 0.08, 14)] freq t)
      * volume
  | Ambient =>
      (0 + 0.5 * sin (2 * PI * (freq - 1.5) * t)
         + 0.5 * sin (2 * PI * (freq + 1.5) * t)
         + 0.12 * sin (2 * PI * (freq * 2) * t))
      * (exp (- (0.5) * t) * cosine_attack (int (sr * 120 / 1000)) i)
      * volume
  | Bowl =>
      foldl (fun s '(ratio, amp, dr) =>
        s + amp * sin (2 * PI * freq * ratio * t) * exp (- dr * t)
            * (1 + 0.06 * sin (2 * PI * 4.1 * t)))
        0 [(1, 1, 1.2); (2, 0.35, 1.8); (3.01, 0.15, 2.5); (4.98, 0.06, 3.5)]
      * cosine_attack (int (sr * 80 / 1000)) i * volume
  | Sine =>
      linear_attack (int (sr * 60 / 1000)) i (sin (2 * PI * freq * t) * volume)
  end.

(** The linear release of [sine_tone] with [fade_ms = 60]. *)
Definition linear_release (sr : R) (i frames : Z) (s : R) : R :=
  let fade_frames := int (sr * 60 / 1000) in
  if decide (i > frames - fade_frames)%Z
  then s * (IZR (frames - i) / IZR fade_frames)
  else s.

(** Sample [i] of [synthesize name freq duration_ms volume sr]. *)
Definition sample (name : instrument) (freq duration_ms volume sr : R) (i : Z)
  : R :=
  let frames := int (sr * duration_ms / 1000) in
  match name with
  | Sine => linear_release sr i frames (unreleased Sine freq volume sr i)
  | _ => unreleased name freq volume sr i * release_gain i frames
  end.

(** The gain [fade_out] applies at position [i] of a fade of [F] frames. *)
Definition fade_gain (F i : Z) : R := 0.5 * (1 + cos (PI * (IZR i / IZR F))).

(** A note placed at [offset] in a longer buffer, read at index [j]. *)
Definition placed (offset : Z) (ns : list R) (j : nat) : R :=
  if decide (offset <= Z.of_nat j)%Z
  then nth (Z.to_nat (Z.of_nat j - offset)) ns 0
  else 0.

(** The sum at index [j] of notes placed [stride] apart from [offset]. *)
Fixpoint staggered (stride offset : Z) (notes : list (list R)) (j : nat) : R :=
  match notes with
  | [] => 0
  | ns :: rest => placed offset ns j + staggered stride (offset + stride) rest j
  end.

(** The sum of the partials' amplitudes of an instrument (times the
    largest value of the wobble for [Bowl]): with volume 1 no sample can
    exceed it. *)
Definition headroom (name : instrument) : R :=
  match name with
  | Glockenspiel => 1.73
  | Sine => 1
  | Marimba => 1.38
  | Ambient => 1.12
  | Bowl => 1.6536
  end.

(** What [process] guarantees of its result for an input of [n] samples:
    50 ms of zeros at both ends (2205 samples at 44100 Hz), at least one
    sample and at most the input with the whole reverb tail between them,
    and every value within 0.9 of full scale. *)
Definition finished (n : Z) (out : list Z) : Prop :=
  (4411 <= len out <= n + 90360)%Z /\
  (forall j : nat, (j < 2205)%nat -> nth j out 0%Z = 0%Z) /\
  (forall j : nat, (len out - 2205 <= Z.of_nat j)%Z -> nth j out 0%Z = 0%Z) /\
  Forall (fun v => (-29490 <= v <= 29490)%Z) out.

(** Sums over a list of reals. *)
Definition Rsum (l : list R) : R := foldr Rplus 0 l.

(** What the tap [d_ms] of [reverb] adds to output sample [j]: nothing
    before its delay [d], the input sample [j - d] attenuated from there
    on (0 past the end of the input). *)
Definition echo (samples : list R) (sr decay first d_ms : R) (j : nat) : R :=
  let d := int (sr * d_ms / 1000) in
  if decide (d <= Z.of_nat j)%Z
  then nth (Z.to_nat (Z.of_nat j - d)) samples 0 * Rpower decay (d_ms / first)
  else 0.

End Closed.
Import Closed.

(** * Properties *)

(** ** Truncation and rounding *)

Section Truncation.

Lemma int_nonneg (x : R) : 0 <= x -> int x = Zfloor x.
Proof. intros H. unfold int. destruct (decide (0 <= x)); [reflexivity | lra]. Qed.

Lemma int_neg (x : R) : x < 0 -> int x = Zceil x.
Proof. intros H. unfold int. destruct (decide (0 <= x)); [lra | reflexivity]. Qed.

Lemma int_IZR (z : Z) : int (IZR z) = z.
Proof.
  unfold int. destruct (decide (0 <= IZR z)).
  - apply ZfloorZ.
  - apply Zceil_eq. lra.
Qed.

(** [int x] is the integer [z] with [z <= x < z + 1] when [x >= 0]. *)
Lemma int_floor_eq (x : R) (z : Z) :
  0 <= x -> IZR z <= x < IZR z + 1 -> int x = z.
Proof. intros H0 H. rewrite int_nonneg by assumption. apply Zfloor_eq, H. Qed.

Lemma int_bounds_nonneg (x : R) :
  0 <= x -> (0 <= int x)%Z /\ IZR (int x) <= x < IZR (int x) + 1.
Proof.
  intros H. rewrite int_nonneg by assumption. split.
  - apply (Zfloor_lub 0 x). exact H.
  - apply Zfloor_bound.
Qed.

Lemma int_bounds_neg (x : R) :
  x < 0 -> (int x <= 0)%Z /\ IZR (int x) - 1 < x <= IZR (int x).
Proof.
  intros H. rewrite int_neg by assumption.
  pose proof (Zceil_bound x) as Hb. split; [| exact Hb].
  apply le_IZR. apply Rnot_lt_le. intros Hc.
  assert (1 <= IZR (Zceil x)) as H1.
  { apply IZR_le. apply lt_IZR in Hc. lia. }
  lra.
Qed.

(** Truncation is monotone. *)
Lemma int_mono (x y : R) : x <= y -> (int x <= int y)%Z.
Proof.
  intros Hxy. destruct (Rle_or_lt 0 x) as [Hx | Hx].
  - rewrite !int_nonneg by lra. apply Zfloor_le, Hxy.
  - destruct (Rle_or_lt 0 y) as [Hy | Hy].
    + pose proof (int_bounds_nonneg y Hy). pose proof (int_bounds_neg x Hx). lia.
    + rewrite !int_neg by lra. apply Zceil_le, Hxy.
Qed.

Lemma int_nonneg_le (x : R) : 0 <= x -> (0 <= int x)%Z.
Proof. intros H. apply int_bounds_nonneg, H. Qed.

End Truncation.

(** ** The exception monad *)

Section Monad.

Context {A B : Type}.

Lemma div_ok (x y : R) : y <> 0 -> x /? y = Ok (x / y).
Proof. intros H. unfold div. destruct (decide (y = 0)); [contradiction | reflexivity]. Qed.

Lemma div_zero (x : R) : x /? 0 = Raise ZeroDivisionError.
Proof. unfold div. destruct (decide (0 = 0)); [reflexivity | contradiction]. Qed.

Lemma mapM_Ok (f : A -> result B) (l : list A) (ys : list B) :
  mapM f l = Ok ys <-> Forall2 (fun x y => f x = Ok y) l ys.
Proof.
  revert ys. induction l as [| x l IH]; intros ys; simpl.
  - split.
    + intros [= <-]. constructor.
    + intros H. inversion H. reflexivity.
  - split.
    + destruct (f x) as [y |] eqn:Hfx; simpl; [| discriminate].
      destruct (mapM f l) as [ys' |] eqn:Hl; simpl; [| discriminate].
      intros [= <-]. constructor; [assumption | apply IH; reflexivity].
    + intros H. inversion H as [| ? y ? ys' Hfx Hrest]; subst.
      rewrite Hfx. simpl. apply IH in Hrest. rewrite Hrest. reflexivity.
Qed.

(** A loop whose body never raises on the items it meets returns. *)
Lemma mapM_total (f : A -> result B) (l : list A) :
  Forall (fun x => exists y, f x = Ok y) l -> exists ys, mapM f l = Ok ys.
Proof.
  induction 1 as [| x l [y Hy] _ [ys Hys]]; simpl.
  - eexists. reflexivity.
  - rewrite Hy, Hys. simpl. eexists. reflexivity.
Qed.

Lemma mapM_length (f : A -> result B) (l : list A) (ys : list B) :
  mapM f l = Ok ys -> length ys = length l.
Proof. intros H. apply mapM_Ok in H. symmetry. eapply Forall2_length, H. Qed.

End Monad.

(** ** The oscillator bank *)

Section Oscillators.
Import Generate.

Lemma mapM_map_Ok {A B : Type} (f : A -> result B) (g : A -> B) (l : list A) :
  (forall x, x ∈ l -> f x = Ok (g x)) -> mapM f l = Ok (map g l).
Proof.
  intros H. apply mapM_Ok. induction l as [| x l IH]; simpl; constructor.
  - apply H. left.
  - apply IH. intros y Hy. apply H. right. exact Hy.
Qed.

(** The fade starts strictly inside a buffer of at least one frame. *)
Lemma fade_start_lt (frames : Z) :
  (1 <= frames)%Z ->
  (0 <= int (IZR frames * 0.85) < frames)%Z.
Proof.
  intros H. apply IZR_le in H.
  destruct (int_bounds_nonneg (IZR frames * 0.85)) as (H0 & Hlo & _); [lra |].
  split; [exact H0 |]. apply lt_IZR. lra.
Qed.

Lemma note_fadeout_Ok (i frames : Z) :
  (0 <= i < frames)%Z ->
  Synth._note_fadeout i frames = Ok (release_gain i frames).
Proof.
  intros H. unfold Synth._note_fadeout, release_gain.
  destruct (decide (i >= int (IZR frames * 0.85))%Z); [| reflexivity].
  rewrite div_ok; [reflexivity |].
  pose proof (fade_start_lt frames ltac:(lia)) as Hf.
  apply not_0_IZR. lia.
Qed.

(** Inside the buffer the release gain lies in (0, 1]: it reaches 0 only
    at index [frames], one past the last sample. *)
Lemma release_gain_range (i frames : Z) :
  (0 <= i < frames)%Z -> 0 < release_gain i frames <= 1.
Proof.
  intros H. unfold release_gain.
  pose proof (fade_start_lt frames ltac:(lia)) as Hf.
  set (fs := int (IZR frames * 0.85)) in *.
  destruct (decide (i >= fs)%Z) as [Hge | Hlt]; [| lra].
  set (t := IZR (i - fs) / IZR (frames - fs)).
  assert (0 < IZR (frames - fs)) as Hden by (apply IZR_lt; lia).
  assert (0 <= t < 1) as Ht.
  { unfold t. split.
    - apply Rmult_le_pos; [apply IZR_le; lia | left; apply Rinv_0_lt_compat, Hden].
    - apply Rmult_lt_reg_r with (IZR (frames - fs)); [exact Hden |].
      unfold Rdiv. rewrite Rmult_assoc, Rinv_l by lra.
      rewrite Rmult_1_r, Rmult_1_l. apply IZR_lt. lia. }
  pose proof PI_RGT_0 as HPI.
  assert (0 <= PI * t) as Hlo by (apply Rmult_le_pos; lra).
  assert (PI * t < PI) as Hhi by nra.
  pose proof (cos_decreasing_1 (PI * t) PI Hlo ltac:(lra) ltac:(lra) ltac:(lra) Hhi) as Hdec.
  rewrite cos_PI in Hdec.
  pose proof (COS_bound (PI * t)) as [_ Hub].
  lra.
Qed.

Lemma frames_sr_nonzero (sr duration_ms : R) (i : Z) :
  (0 <= i < int (sr * duration_ms / 1000))%Z -> sr <> 0.
Proof.
  intros H Hsr. subst sr.
  replace (0 * duration_ms / 1000) with (IZR 0) in H by (simpl; lra).
  rewrite int_IZR in H. lia.
Qed.

Ltac sample_step :=
  match goal with
  | |- context [decide ?P] => destruct (decide P)
  | |- context [div _ (IZR ?a)] => rewrite (div_ok _ (IZR a)) by (apply not_0_IZR; lia)
  | |- _ => progress (cbn [bind])
  end.

Lemma glockenspiel_closed (freq duration_ms volume sr : R) :
  Synth.glockenspiel freq duration_ms volume sr =
  Ok (map (sample Glockenspiel freq duration_ms volume sr)
        (seqZ 0 (int (sr * duration_ms / 1000)))).
Proof.
  unfold Synth.glockenspiel. apply mapM_map_Ok. intros i Hi.
  apply elem_of_seqZ in Hi.
  rewrite div_ok by (apply (frames_sr_nonzero sr duration_ms i); lia).
  rewrite note_fadeout_Ok by lia.
  unfold sample, unreleased, linear_attack, partial_sum. cbn [bind zip zip_with].
  repeat sample_step; reflexivity.
Qed.

Lemma marimba_closed (freq duration_ms volume sr : R) :
  Synth.marimba freq duration_ms volume sr =
  Ok (map (sample Marimba freq duration_ms volume sr)
        (seqZ 0 (int (sr * duration_ms / 1000)))).
Proof.
  unfold Synth.marimba. apply mapM_map_Ok. intros i Hi.
  apply elem_of_seqZ in Hi.
  rewrite div_ok by (apply (frames_sr_nonzero sr duration_ms i); lia).
  rewrite note_fadeout_Ok by lia.
  unfold sample, unreleased, linear_attack, partial_sum. cbn [bind zip zip_with].
  repeat sample_step; reflexivity.
Qed.

Lemma bowl_closed (freq duration_ms volume sr : R) :
  Synth.bowl freq duration_ms volume sr =
  Ok (map (sample Bowl freq duration_ms volume sr)
        (seqZ 0 (int (sr * duration_ms / 1000)))).
Proof.
  unfold Synth.bowl. apply mapM_map_Ok. intros i Hi.
  apply elem_of_seqZ in Hi.
  rewrite div_ok by (apply (frames_sr_nonzero sr duration_ms i); lia).
  rewrite note_fadeout_Ok by lia.
  unfold sample, unreleased, cosine_attack. cbn [bind].
  repeat sample_step; reflexivity.
Qed.

Lemma ambient_closed (freq duration_ms volume sr : R) :
  Synth.ambient freq duration_ms volume sr =
  Ok (map (sample Ambient freq duration_ms volume sr)
        (seqZ 0 (int (sr * duration_ms / 1000)))).
Proof.
  unfold Synth.ambient. apply mapM_map_Ok. intros i Hi.
  apply elem_of_seqZ in Hi.
  rewrite div_ok by (apply (frames_sr_nonzero sr duration_ms i); lia).
  pose proof (fade_start_lt (int (sr * duration_ms / 1000)) ltac:(lia)) as Hf.
  unfold sample, unreleased, cosine_attack, release_gain. cbn [bind].
  repeat sample_step; try lia; f_equal; ring.
Qed.

Lemma sine_tone_closed (freq duration_ms volume sr : R) :
  Synth.sine_tone freq duration_ms volume 60 sr =
  Ok (map (sample Sine freq duration_ms volume sr)
        (seqZ 0 (int (sr * duration_ms / 1000)))).
Proof.
  unfold Synth.sine_tone. apply mapM_map_Ok. intros i Hi.
  apply elem_of_seqZ in Hi.
  rewrite div_ok by (apply (frames_sr_nonzero sr duration_ms i); lia).
  unfold sample, unreleased, linear_release, linear_attack. cbn [bind].
  repeat sample_step; reflexivity.
Qed.

Lemma synthesize_closed (name : instrument) (freq duration_ms volume sr : R) :
  synthesize name freq duration_ms volume sr =
  Ok (map (sample name freq duration_ms volume sr)
        (seqZ 0 (int (sr * duration_ms / 1000)))).
Proof.
  destruct name; simpl.
  - apply glockenspiel_closed.
  - apply sine_tone_closed.
  - apply marimba_closed.
  - apply ambient_closed.
  - apply bowl_closed.
Qed.


Lemma seqZ_snoc (n : Z) : (1 <= n)%Z -> seqZ 0 n = seqZ 0 (n - 1) ++ [(n - 1)%Z].
Proof.
  intros H. replace n with ((n - 1) + 1)%Z at 1 by lia.
  rewrite seqZ_app by lia. reflexivity.
Qed.

Lemma last_map_seqZ {A : Type} (f : Z -> A) (n : Z) :
  (1 <= n)%Z -> last (map f (seqZ 0 n)) = Some (f (n - 1)%Z).
Proof.
  intros H. rewrite (seqZ_snoc n H), map_app. simpl. apply last_snoc.
Qed.

Lemma lookup_map_seqZ {A : Type} (f : Z -> A) (n i : Z) :
  (0 <= i < n)%Z -> map f (seqZ 0 n) !! Z.to_nat i = Some (f i).
Proof.
  intros H. change (map f (seqZ 0 n)) with (f <$> seqZ 0 n).
  rewrite list_lookup_fmap, lookup_seqZ_lt by lia. simpl. f_equal. f_equal. lia.
Qed.

Lemma len_map_seqZ {A : Type} (f : Z -> A) (n : Z) :
  len (map f (seqZ 0 n)) = Z.max 0 n.
Proof. unfold len. rewrite length_map, length_seqZ. lia. Qed.

(** [sine_tone] returns for every fade length, not only the default. *)
Lemma sine_tone_returns (freq duration_ms volume fade_ms sr : R) :
  exists buf, Synth.sine_tone freq duration_ms volume fade_ms sr = Ok buf /\
    len buf = Z.max 0 (int (sr * duration_ms / 1000)).
Proof.
  unfold Synth.sine_tone.
  set (frames := int (sr * duration_ms / 1000)).
  set (body := fun i : Z => _).
  destruct (mapM_total body (seqZ 0 frames)) as [buf Hbuf].
  - apply Forall_forall. intros i Hi. apply elem_of_seqZ in Hi.
    unfold body.
    rewrite div_ok by (apply (frames_sr_nonzero sr duration_ms i); fold frames; lia).
    cbn [bind]. repeat sample_step; eexists; reflexivity.
  - exists buf. split; [exact Hbuf |].
    apply mapM_length in Hbuf. unfold len. rewrite Hbuf, length_seqZ. lia.
Qed.

(** C2, as amended: for each of the five instruments and every frequency,
    duration_ms, volume and sample rate, the synthesis returns a buffer
    whose length is int(sample_rate * duration_ms / 1000), truncated toward
    zero rather than rounded, and 0 when that number is negative;
    [sine_tone] does so for every fade_ms as well. *)
Theorem synth_length_truncates (name : instrument)
  (freq duration_ms volume sr : R) :
  (exists buf, synthesize name freq duration_ms volume sr = Ok buf /\
     len buf = Z.max 0 (int (sr * duration_ms / 1000))) /\
  (forall fade_ms, exists buf,
     Synth.sine_tone freq duration_ms volume fade_ms sr = Ok buf /\
     len buf = Z.max 0 (int (sr * duration_ms / 1000))).
Proof.
  split.
  - rewrite synthesize_closed. eexists. split; [reflexivity |].
    apply len_map_seqZ.
  - intros fade_ms. apply sine_tone_returns.
Qed.

(** C2 as stated fails: at 44100 Hz an 18 ms sine tone has 793 samples,
    while round(44100 * 18 / 1000) = round(793.8) = 794. *)
Lemma synth_length_not_rounded :
  exists buf, synthesize Sine 440 18 0.3 44100 = Ok buf /\
    len buf = 793%Z /\
    round (44100 * 18 / 1000) = 794%Z /\
    len buf <> round (44100 * 18 / 1000).
Proof.
  assert (int (44100 * 18 / 1000) = 793%Z) as Hint.
  { apply int_floor_eq; lra. }
  pose proof (synthesize_closed Sine 440 18 0.3 44100) as Hbuf.
  set (buf := map _ _) in Hbuf.
  assert (len buf = Z.max 0 (int (44100 * 18 / 1000))) as Hlen.
  { apply len_map_seqZ. }
  assert (round (44100 * 18 / 1000) = 794%Z) as Hround.
  { unfold round. rewrite (Zfloor_eq 793) by lra.
    destruct (decide (44100 * 18 / 1000 - 793 < 1 / 2)); [lra |].
    destruct (decide (44100 * 18 / 1000 - 793 > 1 / 2)); [reflexivity | lra]. }
  exists buf. rewrite Hlen, Hint, Hround. repeat split; [exact Hbuf | lia].
Qed.

(** C1, as amended: for glockenspiel, marimba, ambient and bowl, and a
    buffer of at least one frame, every sample i is the sample before the
    release times the gain of the half-cosine release, which is 1 before
    index int(0.85 * frames) and lies in (0, 1] at every index of the
    buffer; at the last index frames - 1 the gain is still positive (it
    would be 0 only at index frames), so the last sample is 0 exactly when
    the sample before the release is. *)
Theorem release_gain_positive_at_end (name : instrument)
  (freq duration_ms volume sr : R) :
  let frames := int (sr * duration_ms / 1000) in
  name <> Sine -> (1 <= frames)%Z ->
  exists buf,
    synthesize name freq duration_ms volume sr = Ok buf /\
    (forall i, (0 <= i < frames)%Z ->
       buf !! Z.to_nat i =
         Some (unreleased name freq volume sr i * release_gain i frames) /\
       0 < release_gain i frames <= 1 /\
       ((i < int (IZR frames * 0.85))%Z -> release_gain i frames = 1)) /\
    last buf =
      Some (unreleased name freq volume sr (frames - 1)
            * release_gain (frames - 1) frames) /\
    (last buf = Some 0 <-> unreleased name freq volume sr (frames - 1) = 0).
Proof.
  intros frames Hname Hframes.
  rewrite synthesize_closed. fold frames. eexists. split; [reflexivity |].
  assert (forall i, sample name freq duration_ms volume sr i =
            unreleased name freq volume sr i * release_gain i frames) as Hs.
  { intros i. unfold sample. fold frames. destruct name; congruence. }
  split; [| split].
  - intros i Hi. rewrite lookup_map_seqZ by exact Hi. rewrite Hs.
    split; [reflexivity |]. split; [apply release_gain_range, Hi |].
    intros Hlt. unfold release_gain.
    destruct (decide (i >= int (IZR frames * 0.85))%Z); [lia | reflexivity].
  - rewrite last_map_seqZ by exact Hframes. rewrite Hs. reflexivity.
  - rewrite last_map_seqZ by exact Hframes. rewrite Hs.
    pose proof (release_gain_range (frames - 1) frames ltac:(lia)) as Hg.
    split.
    + intros [= H0]. nra.
    + intros H0. rewrite H0. f_equal. ring.
Qed.

Lemma release_gain_positive_at_end_witness :
  exists buf,
    synthesize Bowl 131 2000 0.18 44100 = Ok buf /\
    last buf = Some (unreleased Bowl 131 0.18 44100 88199
                     * release_gain 88199 88200).
Proof.
  assert (int (44100 * 2000 / 1000) = 88200%Z) as Hint.
  { apply int_floor_eq; lra. }
  destruct (release_gain_positive_at_end Bowl 131 2000 0.18 44100)
    as (buf & Hbuf & _ & Hlast & _).
  - discriminate.
  - rewrite Hint. lia.
  - exists buf. split; [exact Hbuf |].
    rewrite Hint in Hlast. exact Hlast.
Defined.

(** A note of [ambient], which has the cosine release, whose last sample
    is positive: 2 Hz for 100 ms at 44100 Hz. *)
Lemma ambient_last_sample_positive :
  exists buf x,
    synthesize Ambient 2 100 0.3 44100 = Ok buf /\
    last buf = Some x /\ 0 < x.
Proof.
  assert (int (44100 * 100 / 1000) = 4410%Z) as Hframes.
  { apply int_floor_eq; lra. }
  assert (int (44100 * 120 / 1000) = 5292%Z) as Hattack.
  { apply int_floor_eq; lra. }
  rewrite synthesize_closed, Hframes.
  eexists. eexists. split; [reflexivity |].
  rewrite last_map_seqZ by lia. split; [reflexivity |].
  unfold sample. rewrite Hframes.
  replace (4410 - 1)%Z with 4409%Z by lia.
  pose proof (release_gain_range 4409 4410 ltac:(lia)) as [Hg _].
  apply Rmult_lt_0_compat; [| exact Hg].
  unfold unreleased, cosine_attack. rewrite Hattack.
  destruct (decide (4409 < 5292)%Z); [| lia].
  pose proof PI_RGT_0 as HPI.
  assert (forall c, 0 < c -> c < 5 -> 0 < sin (2 * PI * c * (4409 / 44100))) as Hsin.
  { intros c H0 H5. apply sin_gt_0; nra. }
  pose proof (Hsin (2 - 1.5) ltac:(lra) ltac:(lra)) as H1.
  pose proof (Hsin (2 + 1.5) ltac:(lra) ltac:(lra)) as H2.
  pose proof (Hsin (2 * 2) ltac:(lra) ltac:(lra)) as H3.
  pose proof (exp_pos (- (0.5) * (4409 / 44100))) as He.
  assert (cos (PI * 4409 / 5292) < 1) as Hc.
  { rewrite <- cos_0. apply cos_decreasing_1; lra. }
  apply Rmult_lt_0_compat; [| lra].
  apply Rmult_lt_0_compat; [lra |].
  apply Rmult_lt_0_compat; [exact He | lra].
Qed.

(** C1 as stated fails: the last sample of sine_tone(440, 200, 0.3,
    sr=44100) is sin(2 pi 440 * 8819/44100) * 0.3 * (1/2646), which is not
    0; [sine_tone] has linear fades and no cosine release.  Nor does the
    cosine release force a zero: the last sample of ambient(2, 100, 0.3,
    sr=44100) is positive.  And a positive duration below one frame, such
    as 0.01 ms, gives an empty buffer, which has no last sample. *)
Lemma note_last_sample_nonzero :
  (exists buf x,
     synthesize Sine 440 200 0.3 44100 = Ok buf /\
     last buf = Some x /\
     x = sin (2 * PI * 440 * (8819 / 44100)) * 0.3 * (1 / 2646) /\
     x <> 0) /\
  (exists buf x,
     synthesize Ambient 2 100 0.3 44100 = Ok buf /\
     last buf = Some x /\ 0 < x) /\
  synthesize Glockenspiel 440 0.01 0.4 44100 = Ok [].
Proof.
  split; [| split; [exact ambient_last_sample_positive |]];
    [| rewrite synthesize_closed;
       replace (int (44100 * 0.01 / 1000)) with 0%Z
         by (symmetry; apply int_floor_eq; lra);
       reflexivity].
  assert (int (44100 * 200 / 1000) = 8820%Z) as Hframes.
  { apply int_floor_eq; lra. }
  assert (int (44100 * 60 / 1000) = 2646%Z) as Hfade.
  { apply int_floor_eq; lra. }
  rewrite synthesize_closed, Hframes.
  eexists. eexists. split; [reflexivity |].
  rewrite last_map_seqZ by lia.
  unfold sample, linear_release, unreleased, linear_attack.
  rewrite Hframes, Hfade.
  destruct (decide (8820 - 1 < 2646)%Z); [lia |].
  destruct (decide (8820 - 1 > 8820 - 2646)%Z); [| lia].
  split; [reflexivity |].
  replace (8820 - (8820 - 1))%Z with 1%Z by lia.
  replace (8820 - 1)%Z with 8819%Z by lia.
  split; [reflexivity |].
  assert (sin (2 * PI * 440 * (8819 / 44100)) <> 0) as Hsin.
  { intros H0. apply sin_eq_0_0 in H0 as [k Hk].
    pose proof PI_RGT_0 as HPI.
    assert (IZR (7760720) = IZR (k * 44100)) as HZ.
    { rewrite mult_IZR. apply Rmult_eq_reg_r with PI; [| lra].
      apply Rmult_eq_reg_r with (/ 44100); [| lra].
      transitivity (2 * PI * 440 * (8819 / 44100)); [field |].
      rewrite Hk. field. }
    apply eq_IZR in HZ. lia. }
  intros H0. apply Rmult_integral in H0 as [H0 | H0]; [| lra].
  apply Rmult_integral in H0 as [H0 | H0]; [contradiction | lra].
Qed.

End Oscillators.

(** ** Subscripts *)

Section Subscripts.

Lemma position_Ok {A : Type} (l : list A) (k : Z) :
  (0 <= k < len l)%Z -> position l k = Ok (Z.to_nat k).
Proof.
  intros H. unfold position.
  destruct (decide (0 <= k < len l)%Z); [reflexivity | contradiction].
Qed.

Lemma position_empty {A : Type} (k : Z) : position (@nil A) k = Raise IndexError.
Proof.
  unfold position, len. simpl. repeat case_decide; try lia. reflexivity.
Qed.

Lemma getitem_Ok (l : list R) (k : Z) :
  (0 <= k < len l)%Z -> getitem l k = Ok (nth (Z.to_nat k) l 0).
Proof.
  intros H. unfold getitem. rewrite position_Ok by exact H. cbn [bind].
  destruct (l !! Z.to_nat k) as [x |] eqn:E.
  - rewrite (nth_lookup_Some _ _ _ _ E). reflexivity.
  - apply lookup_ge_None in E. unfold len in H. lia.
Qed.

Lemma setitem_Ok (l : list R) (k : Z) (v : R) :
  (0 <= k < len l)%Z -> setitem l k v = Ok (<[Z.to_nat k := v]> l).
Proof. intros H. unfold setitem. rewrite position_Ok by exact H. reflexivity. Qed.

Lemma additem_Ok (l : list R) (k : Z) (v : R) :
  (0 <= k < len l)%Z ->
  additem l k v = Ok (<[Z.to_nat k := nth (Z.to_nat k) l 0 + v]> l).
Proof.
  intros H. unfold additem. rewrite getitem_Ok by exact H. cbn [bind].
  apply setitem_Ok, H.
Qed.

Lemma nth_insert_eq (l : list R) (i : nat) (v : R) :
  (i < length l)%nat -> nth i (<[i := v]> l) 0 = v.
Proof.
  intros H. apply nth_lookup_Some. apply list_lookup_insert_eq. exact H.
Qed.

Lemma nth_insert_ne (l : list R) (i j : nat) (v : R) :
  i <> j -> nth j (<[i := v]> l) 0 = nth j l 0.
Proof.
  intros H. rewrite !nth_lookup. rewrite list_lookup_insert_ne by exact H.
  reflexivity.
Qed.

Lemma nth_zeros (n : Z) (j : nat) : nth j (zeros n) 0 = 0.
Proof.
  unfold zeros. rewrite nth_lookup.
  destruct (replicate (Z.to_nat n) 0 !! j) as [x |] eqn:E; [| reflexivity].
  apply lookup_replicate in E as [-> _]. reflexivity.
Qed.

Lemma len_zeros (n : Z) : len (zeros n) = Z.max 0 n.
Proof. unfold len, zeros. rewrite length_replicate. lia. Qed.

End Subscripts.

(** ** The lowpass filter *)

Section Lowpass.

Variable alpha : R.
Variable buf : list R.

Let body (out : list R) (i : Z) : result (list R) :=
  p <- getitem out (i - 1) ;;
  b <- getitem buf i ;;
  q <- getitem out (i - 1) ;;
  setitem out i (p + alpha * (b - q)).

(** The inner loop from index [k] on: it returns, keeps the length and
    the samples before [k], and every sample from [k] on obeys the
    recursion. *)
Lemma lowpass_loop (m k : nat) (out : list R) :
  (1 <= k)%nat -> (k + m <= length buf)%nat -> length out = length buf ->
  exists out',
    foldM body out (seqZ (Z.of_nat k) (Z.of_nat m)) = Ok out' /\
    length out' = length buf /\
    (forall j, (j < k)%nat -> nth j out' 0 = nth j out 0) /\
    (forall j, (k <= j < k + m)%nat ->
       nth j out' 0 =
       nth (j - 1) out' 0 + alpha * (nth j buf 0 - nth (j - 1) out' 0)).
Proof.
  revert k out. induction m as [| m IH]; intros k out Hk Hm Hlen.
  - exists out. rewrite seqZ_nil by lia. simpl.
    split; [reflexivity |]. split; [exact Hlen |].
    split; intros; [reflexivity | lia].
  - rewrite seqZ_cons by lia. cbn [foldM]. unfold body at 1.
    rewrite !getitem_Ok by (unfold len; lia). cbn [bind].
    rewrite setitem_Ok by (unfold len; lia).
    set (p := nth (Z.to_nat (Z.of_nat k - 1)) out 0).
    set (v := p + alpha * (nth (Z.to_nat (Z.of_nat k)) buf 0 - p)).
    cbn [bind].
    replace (Z.succ (Z.of_nat k)) with (Z.of_nat (S k)) by lia.
    replace (Z.pred (Z.of_nat (S m))) with (Z.of_nat m) by lia.
    rewrite Nat2Z.id.
    destruct (IH (S k) (<[k := v]> out)) as (out' & Hrun & Hlen' & Hkeep & Hrec).
    { lia. } { lia. } { rewrite length_insert. exact Hlen. }
    exists out'. split; [exact Hrun |]. split; [exact Hlen' |]. split.
    + intros j Hj. rewrite Hkeep by lia. apply nth_insert_ne. lia.
    + intros j Hj. destruct (decide (j = k)) as [-> | Hne].
      * rewrite !Hkeep by lia.
        rewrite nth_insert_eq by lia.
        rewrite nth_insert_ne by lia.
        unfold v, p. rewrite Nat2Z.id.
        replace (Z.to_nat (Z.of_nat k - 1)) with (k - 1)%nat by lia.
        reflexivity.
      * apply Hrec. lia.
Qed.

(** One stage on a non-empty buffer. *)
Lemma lowpass_stage_spec :
  buf <> [] ->
  exists out,
    Dsp.lowpass_stage alpha buf = Ok out /\
    length out = length buf /\
    nth 0 out 0 = nth 0 buf 0 * alpha /\
    (forall j, (1 <= j < length buf)%nat ->
       nth j out 0 =
       nth (j - 1) out 0 + alpha * (nth j buf 0 - nth (j - 1) out 0)).
Proof.
  intros Hne. unfold Dsp.lowpass_stage.
  assert (1 <= length buf)%nat as Hpos.
  { destruct buf; [contradiction | simpl; lia]. }
  rewrite getitem_Ok by (unfold len; lia). cbn [bind].
  rewrite setitem_Ok by (rewrite len_zeros; unfold len; lia). cbn [bind].
  change (Z.to_nat 0) with 0%nat.
  set (out0 := <[0%nat := nth 0 buf 0 * alpha]> (zeros (len buf))).
  assert (length out0 = length buf) as Hlen0.
  { unfold out0, zeros, len. rewrite length_insert, length_replicate. lia. }
  destruct (lowpass_loop (length buf - 1) 1 out0) as (out & Hrun & Hlen & Hkeep & Hrec);
    [lia | lia | exact Hlen0 |].
  exists out. split.
  - replace (len buf - 1)%Z with (Z.of_nat (length buf - 1)) by (unfold len; lia).
    exact Hrun.
  - split; [exact Hlen |]. split.
    + rewrite Hkeep by lia. unfold out0. apply nth_insert_eq.
      unfold zeros, len. rewrite length_replicate. lia.
    + intros j Hj. apply Hrec. lia.
Qed.

Lemma lowpass_stage_empty : Dsp.lowpass_stage alpha [] = Raise IndexError.
Proof. unfold Dsp.lowpass_stage, getitem. rewrite position_empty. reflexivity. Qed.

End Lowpass.

Section LowpassCascade.

Variable alpha : R.

Lemma lowpass_stages_length (l : list Z) (buf : list R) :
  buf <> [] ->
  exists out,
    foldM (fun buf _ => Dsp.lowpass_stage alpha buf) buf l = Ok out /\
    length out = length buf.
Proof.
  revert buf. induction l as [| i l IH]; intros buf Hne; cbn [foldM].
  - exists buf. split; reflexivity.
  - destruct (lowpass_stage_spec alpha buf Hne) as (out1 & Hst & Hlen1 & _).
    rewrite Hst. cbn [bind].
    destruct (IH out1) as (out & Hrun & Hlen).
    + intros ->. destruct buf; [contradiction | discriminate].
    + exists out. split; [exact Hrun | congruence].
Qed.

Lemma lowpass_stages_empty (l : list Z) :
  l <> [] ->
  foldM (fun buf _ => Dsp.lowpass_stage alpha buf) [] l = Raise IndexError.
Proof.
  destruct l as [| i l]; [contradiction |]. intros _. cbn [foldM].
  rewrite lowpass_stage_empty. reflexivity.
Qed.

End LowpassCascade.

Section LowpassClaims.

(** The smoothing factor of [lowpass]. *)
Lemma lowpass_alpha (cutoff_hz sr : R) :
  0 < cutoff_hz -> 0 < sr ->
  1 /? (2 * PI * cutoff_hz) = Ok (1 / (2 * PI * cutoff_hz)) /\
  1 /? sr = Ok (1 / sr) /\
  (1 / sr) /? (1 / (2 * PI * cutoff_hz) + 1 / sr) =
    Ok (1 / sr / (1 / (2 * PI * cutoff_hz) + 1 / sr)).
Proof.
  intros Hc Hs. pose proof PI_RGT_0 as HPI.
  assert (0 < 2 * PI * cutoff_hz) as H1 by nra.
  assert (0 < 1 / (2 * PI * cutoff_hz)) as H2 by (apply Rdiv_lt_0_compat; lra).
  assert (0 < 1 / sr) as H3 by (apply Rdiv_lt_0_compat; lra).
  repeat split; apply div_ok; lra.
Qed.

Lemma seqZ_nonempty (n : Z) : (1 <= n)%Z -> seqZ 0 n <> [].
Proof. intros H. rewrite seqZ_cons by lia. discriminate. Qed.

(** C5: for a non-empty buffer, cutoff_hz > 0, sample rate > 0 and
    poles >= 1, lowpass returns a buffer of the length of its input; with
    poles = 1 the output starts at input[0] * alpha and obeys
    output[i] = output[i-1] + alpha * (input[i] - output[i-1]) for i >= 1,
    where alpha = dt / (rc + dt), rc = 1 / (2 pi cutoff_hz), dt = 1 / sr. *)
Theorem lowpass_length_and_recursion (samples : list R) (cutoff_hz sr : R)
  (poles : Z) :
  samples <> [] -> 0 < cutoff_hz -> 0 < sr -> (1 <= poles)%Z ->
  let rc := 1 / (2 * PI * cutoff_hz) in
  let dt := 1 / sr in
  let alpha := dt / (rc + dt) in
  (exists out, Dsp.lowpass samples cutoff_hz sr poles = Ok out /\
     length out = length samples) /\
  (exists out, Dsp.lowpass samples cutoff_hz sr 1 = Ok out /\
     length out = length samples /\
     nth 0 out 0 = nth 0 samples 0 * alpha /\
     forall i, (1 <= i < length samples)%nat ->
       nth i out 0 =
       nth (i - 1) out 0 + alpha * (nth i samples 0 - nth (i - 1) out 0)).
Proof.
  intros Hne Hc Hs Hp rc dt alpha.
  destruct (lowpass_alpha cutoff_hz sr Hc Hs) as (Hrc & Hdt & Halpha).
  unfold Dsp.lowpass. rewrite Hrc. cbn [bind]. rewrite Hdt. cbn [bind].
  rewrite Halpha. cbn [bind]. fold rc dt alpha. split.
  - apply lowpass_stages_length, Hne.
  - rewrite seqZ_cons by lia. rewrite seqZ_nil by lia. cbn [foldM].
    destruct (lowpass_stage_spec alpha samples Hne) as (out & Hst & Hlen & H0 & Hrec).
    exists out. rewrite Hst. cbn [bind]. repeat split; assumption.
Qed.

Lemma lowpass_length_and_recursion_witness :
  exists out, Dsp.lowpass [1; 0; 0] 1800 44100 1 = Ok out /\
    length out = 3%nat /\
    nth 1 out 0 = nth 0 out 0 + 1 / 44100 / (1 / (2 * PI * 1800) + 1 / 44100)
                                * (0 - nth 0 out 0).
Proof.
  destruct (lowpass_length_and_recursion [1; 0; 0] 1800 44100 1)
    as (_ & out & Hout & Hlen & _ & Hrec); [discriminate | lra | lra | lia |].
  exists out. split; [exact Hout |]. split; [exact Hlen |].
  apply (Hrec 1%nat). simpl. lia.
Defined.

(** C10: with poles >= 1 lowpass fails on an empty buffer (with valid
    cutoff and sample rate the failure is the IndexError of index 0), and
    whatever its arguments it never returns an empty buffer. *)
Theorem lowpass_rejects_empty (cutoff_hz sr : R) (poles : Z) :
  (1 <= poles)%Z ->
  (exists e, Dsp.lowpass [] cutoff_hz sr poles = Raise e) /\
  (0 < cutoff_hz -> 0 < sr ->
   Dsp.lowpass [] cutoff_hz sr poles = Raise IndexError) /\
  (forall samples, Dsp.lowpass samples cutoff_hz sr poles <> Ok []).
Proof.
  intros Hp.
  assert (forall samples out,
            Dsp.lowpass samples cutoff_hz sr poles = Ok out ->
            samples <> [] /\ length out = length samples) as Hinv.
  { intros samples out. unfold Dsp.lowpass.
    destruct (1 /? (2 * PI * cutoff_hz)) as [rc |]; cbn [bind]; [| discriminate].
    destruct (1 /? sr) as [dt |]; cbn [bind]; [| discriminate].
    destruct (dt /? (rc + dt)) as [alpha |]; cbn [bind]; [| discriminate].
    intros Hrun.
    destruct samples as [| s samples].
    - rewrite lowpass_stages_empty in Hrun by (apply seqZ_nonempty, Hp).
      discriminate.
    - split; [discriminate |].
      destruct (lowpass_stages_length alpha (seqZ 0 poles) (s :: samples))
        as (out' & Hrun' & Hlen); [discriminate |].
      congruence. }
  split; [| split].
  - destruct (Dsp.lowpass [] cutoff_hz sr poles) as [out | e] eqn:E.
    + apply Hinv in E as [E _]. contradiction.
    + exists e. reflexivity.
  - intros Hc Hs.
    destruct (lowpass_alpha cutoff_hz sr Hc Hs) as (Hrc & Hdt & Halpha).
    unfold Dsp.lowpass. rewrite Hrc. cbn [bind]. rewrite Hdt. cbn [bind].
    rewrite Halpha. cbn [bind].
    apply lowpass_stages_empty, seqZ_nonempty, Hp.
  - intros samples E. apply Hinv in E as [Hne Hlen].
    destruct samples; [contradiction | discriminate Hlen].
Qed.

Lemma lowpass_rejects_empty_witness :
  Dsp.lowpass [] 1800 44100 3 = Raise IndexError.
Proof.
  destruct (lowpass_rejects_empty 1800 44100 3) as (_ & H & _); [lia |].
  apply H; lra.
Defined.

End LowpassClaims.

(** ** The silence trimmer *)

Section Trim.

Variable threshold : R.
Variable chunk : nat.

(** Each turn of the loop shortens the buffer. *)
Lemma drop_last_shorter (out : list R) :
  Dsp.trim_guard threshold chunk out = true ->
  (length (Dsp.drop_last chunk out) < length out)%nat.
Proof.
  unfold Dsp.trim_guard, Dsp.drop_last. intros H.
  apply andb_prop in H as [H _]. apply bool_decide_eq_true in H.
  destruct (decide (chunk = 0%nat)); simpl; [lia |].
  rewrite length_take. lia.
Qed.

Lemma trim_loop_unfold (out : list R) :
  Dsp.trim_loop threshold chunk out =
  if Dsp.trim_guard threshold chunk out
  then Dsp.trim_loop threshold chunk (Dsp.drop_last chunk out)
  else out.
Proof.
  rewrite Dsp.trim_loop_equation_1.
  destruct (decide (Dsp.trim_guard threshold chunk out = true)) as [H | H]; simpl.
  - rewrite H. reflexivity.
  - destruct (Dsp.trim_guard threshold chunk out); [contradiction | reflexivity].
Qed.

Lemma silent_Forall (block : list R) :
  Dsp.silent threshold block = true ->
  Forall (fun s => Rabs s < threshold) block.
Proof.
  unfold Dsp.silent. intros H. rewrite forallb_forall in H.
  apply Forall_forall. intros s Hs.
  apply list_elem_of_In in Hs. apply H in Hs.
  apply bool_decide_eq_true in Hs. exact Hs.
Qed.

(** A buffer is what is kept followed by the block examined. *)
Lemma drop_last_last_chunk (out : list R) :
  out = Dsp.drop_last chunk out ++ Dsp.last_chunk chunk out.
Proof.
  unfold Dsp.drop_last, Dsp.last_chunk.
  destruct (decide (chunk = 0%nat)); [reflexivity |].
  symmetry. apply take_drop.
Qed.

Lemma last_chunk_length (out : list R) :
  (chunk < length out)%nat -> (0 < chunk)%nat ->
  length (Dsp.last_chunk chunk out) = chunk.
Proof.
  intros H H0. unfold Dsp.last_chunk.
  destruct (decide (chunk = 0%nat)); [lia |].
  rewrite length_drop. lia.
Qed.

(** What the loop returns from any state: the state minus a silent tail
    made of whole blocks, on which the guard is false. *)
Lemma trim_loop_spec (out : list R) :
  exists removed,
    out = Dsp.trim_loop threshold chunk out ++ removed /\
    Forall (fun s => Rabs s < threshold) removed /\
    ((0 < chunk)%nat -> exists k, length removed = (k * chunk)%nat) /\
    Dsp.trim_guard threshold chunk (Dsp.trim_loop threshold chunk out) = false.
Proof.
  induction out as [out IH] using (induction_ltof1 _ (@length R)).
  unfold ltof in IH. rewrite trim_loop_unfold.
  destruct (Dsp.trim_guard threshold chunk out) eqn:Hg.
  - destruct (IH (Dsp.drop_last chunk out)) as (removed & Heq & Hsil & Hmul & Hstop).
    { apply drop_last_shorter. exact Hg. }
    exists (removed ++ Dsp.last_chunk chunk out).
    apply andb_prop in Hg as [Hlen Hblock].
    apply bool_decide_eq_true in Hlen.
    split; [| split; [| split]].
    + rewrite app_assoc, <- Heq. apply drop_last_last_chunk.
    + apply Forall_app. split; [exact Hsil | apply silent_Forall, Hblock].
    + intros Hc. destruct (Hmul Hc) as [k Hk]. exists (S k).
      rewrite length_app, Hk, last_chunk_length by assumption. lia.
    + exact Hstop.
  - exists []. rewrite app_nil_r. split; [reflexivity |].
    split; [constructor |]. split; [| exact Hg].
    intros _. exists 0%nat. reflexivity.
Qed.


End Trim.


(** ** The normalizer *)

Section Normalize.

Lemma foldl_max2_spec (l : list R) (a : R) :
  a <= foldl max2 a l /\
  Forall (fun y => y <= foldl max2 a l) l /\
  (foldl max2 a l = a \/ In (foldl max2 a l) l).
Proof.
  revert a. induction l as [| x l IH]; intros a; simpl.
  - split; [lra |]. split; [constructor | left; reflexivity].
  - destruct (IH (max2 a x)) as (Hge & Hall & Hin).
    assert (a <= max2 a x /\ x <= max2 a x /\ (max2 a x = a \/ max2 a x = x))
      as (Ha & Hx & Hor).
    { unfold max2. destruct (decide (x > a)); lra. }
    split; [lra |]. split.
    + constructor; [lra | exact Hall].
    + destruct Hin as [Hin | Hin].
      * destruct Hor as [Hor | Hor]; [left | right; left]; congruence.
      * right. right. exact Hin.
Qed.

(** [max(abs(s) for s in samples)] on a non-empty buffer: an upper bound
    of the absolute values that is one of them. *)
Lemma max_abs_spec (samples : list R) :
  samples <> [] ->
  exists m, max_of (map Rabs samples) = Ok m /\
    Forall (fun s => Rabs s <= m) samples /\
    (exists s, In s samples /\ m = Rabs s).
Proof.
  destruct samples as [| x l]; [contradiction |]. intros _. simpl.
  destruct (foldl_max2_spec (map Rabs l) (Rabs x)) as (Hge & Hall & Hin).
  eexists. split; [reflexivity |]. split.
  - constructor; [exact Hge |].
    rewrite Forall_map in Hall. exact Hall.
  - destruct Hin as [Hin | Hin].
    + exists x. split; [left; reflexivity | exact Hin].
    + apply in_map_iff in Hin as (s & Hs & Hin).
      exists s. split; [right; exact Hin | symmetry; exact Hs].
Qed.

Lemma mapM_scale (samples : list R) (peak mx : R) :
  mx <> 0 ->
  mapM (fun s => (s * peak) /? mx) samples =
  Ok (map (fun s => s * peak / mx) samples).
Proof. intros H. apply mapM_map_Ok. intros s _. apply div_ok, H. Qed.

(** C7, as amended: for a non-empty buffer and a peak >= 0, normalize
    returns a buffer of the same length whose samples all have absolute
    value at most peak; it returns the input unchanged when every input
    sample already has absolute value at most peak, and an all-zero buffer
    comes back unchanged (its maximum 0 is replaced by 1, so nothing is
    divided by zero). *)
Theorem normalize_within_peak (samples : list R) (peak : R) :
  samples <> [] -> 0 <= peak ->
  exists out,
    Dsp.normalize samples peak = Ok out /\
    length out = length samples /\
    Forall (fun s => Rabs s <= peak) out /\
    (Forall (fun s => Rabs s <= peak) samples -> out = samples) /\
    (Forall (fun s => s = 0) samples -> out = samples).
Proof.
  intros Hne Hpeak. unfold Dsp.normalize.
  destruct (max_abs_spec samples Hne) as (m & Hm & Hall & s0 & Hs0 & Hm0).
  rewrite Hm. cbn [bind].
  assert (0 <= m) as Hmpos by (rewrite Hm0; apply Rabs_pos).
  set (mx := if decide (m = 0) then 1 else m).
  assert (0 < mx /\ m <= mx) as [Hmx Hle].
  { unfold mx. destruct (decide (m = 0)); lra. }
  assert (m = 0 -> map (fun s => s * peak / mx) samples = samples) as Hzero.
  { intros H0. rewrite <- (map_id samples) at 2. apply map_ext_in.
    intros s Hs. rewrite Forall_forall in Hall.
    apply list_elem_of_In in Hs. apply Hall in Hs.
    assert (s = 0) as ->.
    { destruct (Req_dec s 0) as [E | E]; [exact E |].
      apply Rabs_pos_lt in E. lra. }
    unfold Rdiv. ring. }
  destruct (decide (mx > peak)) as [Hgt | Hngt].
  - rewrite mapM_scale by lra. eexists. split; [reflexivity |].
    split; [apply length_map |]. split; [| split].
    + apply Forall_map. eapply Forall_impl; [exact Hall |].
      intros s Hs. simpl.
      unfold Rdiv. rewrite !Rabs_mult.
      rewrite (Rabs_pos_eq peak) by exact Hpeak.
      rewrite Rabs_inv, (Rabs_pos_eq mx) by lra.
      assert (Rabs s * / mx <= 1) as H1.
      { apply Rmult_le_reg_r with mx; [exact Hmx |].
        rewrite Rmult_assoc, Rinv_l by lra. lra. }
      pose proof (Rabs_pos s). nra.
    + intros Hin. apply Hzero.
      destruct (decide (m = 0)) as [H0 | Hn0]; [exact H0 |].
      exfalso. rewrite Forall_forall in Hin.
      apply list_elem_of_In in Hs0. apply Hin in Hs0.
      unfold mx in Hgt. destruct (decide (m = 0)); lra.
    + intros Hz. apply Hzero.
      rewrite Forall_forall in Hz. apply list_elem_of_In in Hs0.
      apply Hz in Hs0. rewrite Hm0, Hs0. apply Rabs_R0.
  - exists samples. split; [reflexivity |]. split; [reflexivity |].
    split; [| split; intros _; reflexivity].
    eapply Forall_impl; [exact Hall |]. intros s Hs. simpl in *. lra.
Qed.

Lemma normalize_within_peak_witness :
  exists out, Dsp.normalize [0.5; -3; 1.5] 0.9 = Ok out /\
    Forall (fun s => Rabs s <= 0.9) out.
Proof.
  destruct (normalize_within_peak [0.5; -3; 1.5] 0.9)
    as (out & Hout & _ & Hb & _); [discriminate | lra |].
  exists out. split; assumption.
Defined.

(** C7 as stated fails for a negative peak: normalize([1.0], -1.0) is
    [-1.0], whose absolute value 1 exceeds the peak -1. *)
Lemma normalize_negative_peak :
  Dsp.normalize [1] (-1) = Ok [1 * -1 / 1] /\
  ~ Forall (fun s => Rabs s <= -1) [1 * -1 / 1].
Proof.
  split.
  - unfold Dsp.normalize. simpl max_of. cbn [bind].
    rewrite Rabs_R1.
    destruct (decide (1 = 0)); [lra |].
    destruct (decide (1 > -1)); [| lra].
    cbn [mapM]. rewrite div_ok by lra. reflexivity.
  - intros H. inversion H as [| ? ? Hx _]; subst.
    pose proof (Rabs_pos (1 * -1 / 1)). lra.
Qed.

End Normalize.

(** ** The quantizer *)

Section Quantize.

Lemma min2_Rmin (a b : R) : min2 a b = Rmin a b.
Proof. unfold min2, Rmin. destruct (decide (b < a)), (Rle_dec a b); lra. Qed.

Lemma max2_Rmax (a b : R) : max2 a b = Rmax a b.
Proof. unfold max2, Rmax. destruct (decide (b > a)), (Rle_dec a b); lra. Qed.

Lemma quantize_clamp (s : R) :
  Dsp.quantize s = int (Rmax (-1) (Rmin 1 s) * 32767).
Proof. unfold Dsp.quantize. rewrite min2_Rmin, max2_Rmax. reflexivity. Qed.

Lemma quantize_mono (x y : R) : x <= y -> (Dsp.quantize x <= Dsp.quantize y)%Z.
Proof.
  intros H. rewrite !quantize_clamp. apply int_mono.
  apply Rmult_le_compat_r; [lra |].
  apply Rle_max_compat_l. apply Rle_min_compat_l. exact H.
Qed.

Lemma quantize_high (x : R) : 1 < x -> Dsp.quantize x = 32767%Z.
Proof.
  intros H. rewrite quantize_clamp.
  rewrite Rmin_left by lra. rewrite Rmax_right by lra.
  replace (1 * 32767) with (IZR 32767) by lra. apply int_IZR.
Qed.

Lemma quantize_low (x : R) : x < -1 -> Dsp.quantize x = (-32767)%Z.
Proof.
  intros H. rewrite quantize_clamp.
  rewrite Rmin_right by lra. rewrite Rmax_left by lra.
  replace (-1 * 32767) with (IZR (-32767)) by lra. apply int_IZR.
Qed.

(** C8: to_int16 maps each sample s to int(clamp(s) * 32767), with clamp
    to [-1, 1] and truncation toward zero; for samples x <= y taken from
    any two buffers the value of x is at most the value of y; every
    sample above 1 gives 32767 and every sample below -1 gives -32767. *)
Theorem to_int16_monotone_saturating (a b : list R) (i j : nat) (x y : R) :
  a !! i = Some x -> b !! j = Some y ->
  Dsp.to_int16 a = map (fun s => int (Rmax (-1) (Rmin 1 s) * 32767)) a /\
  Dsp.to_int16 a !! i = Some (Dsp.quantize x) /\
  Dsp.to_int16 b !! j = Some (Dsp.quantize y) /\
  (x <= y -> (Dsp.quantize x <= Dsp.quantize y)%Z) /\
  (1 < x -> Dsp.quantize x = 32767%Z) /\
  (x < -1 -> Dsp.quantize x = (-32767)%Z).
Proof.
  intros Ha Hb. unfold Dsp.to_int16. split; [| split; [| split]].
  - apply map_ext. intros s. apply quantize_clamp.
  - change (map Dsp.quantize a) with (Dsp.quantize <$> a).
    rewrite list_lookup_fmap, Ha. reflexivity.
  - change (map Dsp.quantize b) with (Dsp.quantize <$> b).
    rewrite list_lookup_fmap, Hb. reflexivity.
  - split; [apply quantize_mono |].
    split; [apply quantize_high | apply quantize_low].
Qed.

Lemma to_int16_monotone_saturating_witness :
  Dsp.to_int16 [0.5; 7] !! 1%nat = Some 32767%Z /\
  Dsp.to_int16 [-2] !! 0%nat = Some (-32767)%Z.
Proof.
  destruct (to_int16_monotone_saturating [0.5; 7] [-2] 1 0 7 (-2))
    as (_ & Hx & Hy & _ & Hhi & _); [reflexivity | reflexivity |].
  destruct (to_int16_monotone_saturating [-2] [-2] 0 0 (-2) (-2))
    as (_ & _ & _ & _ & _ & Hlo); [reflexivity | reflexivity |].
  rewrite Hx, Hy, Hhi, Hlo by lra. split; reflexivity.
Defined.

End Quantize.

(** ** Loops that add one buffer into another *)

Section AddLoop.

Variable f : list R -> Z * R -> result (list R).
Variable d : Z.
Variable c : R -> R.
Hypothesis f_additem : forall out i s, f out (i, s) = additem out (i + d) (c s).

(** [for i, s in enumerate(samples): out[i + d] += c(s)], started at
    position [k], when the target indices fit in [out]. *)
Lemma add_loop (samples : list R) (k : Z) (out : list R) :
  (0 <= k + d)%Z -> (k + d + len samples <= len out)%Z ->
  exists out',
    foldM f out (enumerate_from k samples) = Ok out' /\
    length out' = length out /\
    forall j : nat,
      nth j out' 0 =
      nth j out 0 +
      (if decide (k + d <= Z.of_nat j < k + d + len samples)%Z
       then c (nth (Z.to_nat (Z.of_nat j - (k + d))) samples 0)
       else 0).
Proof.
  revert k out. induction samples as [| s rest IH]; intros k out H0 Hfit.
  - exists out. simpl. split; [reflexivity |]. split; [reflexivity |].
    intros j. unfold len. simpl. case_decide; [lia | lra].
  - unfold len in Hfit. simpl in Hfit. cbn [enumerate_from foldM].
    rewrite f_additem, additem_Ok by (unfold len; lia). cbn [bind].
    set (n := Z.to_nat (k + d)).
    set (out1 := <[n := nth n out 0 + c s]> out).
    destruct (IH (k + 1)%Z out1) as (out' & Hrun & Hlen & Hnth).
    { lia. }
    { unfold out1, len. rewrite length_insert. unfold len in *. lia. }
    exists out'. split; [exact Hrun |]. split.
    { rewrite Hlen. unfold out1. apply length_insert. }
    intros j. rewrite Hnth. unfold len. simpl length.
    destruct (decide (j = n)) as [-> | Hne].
    + unfold out1. rewrite nth_insert_eq by (unfold len in *; lia).
      repeat case_decide; try lia.
      replace (Z.to_nat (Z.of_nat n - (k + d))) with 0%nat by lia.
      simpl. lra.
    + unfold out1. rewrite nth_insert_ne by (intros E; apply Hne; symmetry; exact E).
      repeat case_decide; try lia; try lra.
      replace (Z.to_nat (Z.of_nat j - (k + d)))
        with (S (Z.to_nat (Z.of_nat j - (k + 1 + d)))) by lia.
      simpl. lra.
Qed.

End AddLoop.

Section AddWhole.

(** [for i, s in enumerate(voice): mixed[i] += s] *)
Lemma add_whole (voice mixed : list R) :
  (len voice <= len mixed)%Z ->
  exists mixed',
    foldM (fun out '(i, s) => additem out i s) mixed (enumerate voice) = Ok mixed' /\
    length mixed' = length mixed /\
    forall j : nat, nth j mixed' 0 = nth j mixed 0 + nth j voice 0.
Proof.
  intros Hfit.
  destruct (add_loop (fun out '(i, s) => additem out i s) 0 (fun s => s)
              ltac:(intros; rewrite Z.add_0_r; reflexivity) voice 0 mixed)
    as (mixed' & Hrun & Hlen & Hnth); [lia | lia |].
  exists mixed'. split; [exact Hrun |]. split; [exact Hlen |].
  intros j. rewrite Hnth. case_decide.
  - f_equal. f_equal. lia.
  - rewrite (nth_overflow voice) by (unfold len in *; lia). reflexivity.
Qed.

(** [for i, s in enumerate(samples): out[i + d] += s * atten] *)
Lemma add_delayed_spec (samples : list R) (d : Z) (atten : R) (out : list R) :
  (0 <= d)%Z -> (d + len samples <= len out)%Z ->
  exists out',
    Dsp.add_delayed samples d atten out = Ok out' /\
    length out' = length out /\
    forall j : nat,
      nth j out' 0 =
      nth j out 0 +
      (if decide (d <= Z.of_nat j)%Z
       then nth (Z.to_nat (Z.of_nat j - d)) samples 0 * atten
       else 0).
Proof.
  intros H0 Hfit. unfold Dsp.add_delayed.
  destruct (add_loop (fun out '(i, s) => additem out (i + d) (s * atten)) d
              (fun s => s * atten) ltac:(intros; reflexivity) samples 0 out)
    as (out' & Hrun & Hlen & Hnth); [lia | lia |].
  exists out'. split; [exact Hrun |]. split; [exact Hlen |].
  intros j. rewrite Hnth. repeat case_decide; try lia; try reflexivity.
  rewrite (nth_overflow samples) by (unfold len in *; lia). lra.
Qed.

End AddWhole.

(** ** The reverb *)

Section Reverb.

Variable samples : list R.
Variable sr decay : R.
Variable delays_ms : list R.

Hypothesis sr_pos : 0 < sr.
Hypothesis decay_pos : 0 < decay.
Hypothesis first_nonzero : hd 0 delays_ms <> 0.

Let frames_of (d_ms : R) : Z := int (sr * d_ms / 1000).

Let tap (out : list R) (d_ms : R) : result (list R) :=
  let d := int (sr * d_ms / 1000) in
  first <- getitem delays_ms 0 ;;
  e <- d_ms /? first ;;
  atten <- float_pow decay e ;;
  Dsp.add_delayed samples d atten out.

Lemma float_pow_pos (e : R) : float_pow decay e = Ok (Rpower decay e).
Proof. unfold float_pow. destruct (decide (0 < decay)); [reflexivity | contradiction]. Qed.

Lemma first_delay : delays_ms <> [] -> getitem delays_ms 0 = Ok (hd 0 delays_ms).
Proof.
  intros Hne. destruct delays_ms as [| x l]; [contradiction |].
  rewrite getitem_Ok by (unfold len; simpl; lia). reflexivity.
Qed.

(** The loop over the taps, from any buffer in which every tap fits. *)
Lemma taps_loop (taps : list R) (out : list R) :
  delays_ms <> [] ->
  Forall (fun d_ms => (0 <= frames_of d_ms)%Z /\
                      (frames_of d_ms + len samples <= len out)%Z) taps ->
  exists out',
    foldM tap out taps = Ok out' /\
    length out' = length out /\
    forall j : nat,
      nth j out' 0 =
      nth j out 0 +
      Rsum (map (fun d_ms => echo samples sr decay (hd 0 delays_ms) d_ms j) taps).
Proof.
  intros Hne. revert out. induction taps as [| d_ms taps IH]; intros out Hfit.
  - exists out. simpl. split; [reflexivity |]. split; [reflexivity |].
    intros j. lra.
  - inversion Hfit as [| ? ? [Hd0 Hdfit] Hrest]; subst.
    cbn [foldM]. unfold tap at 1.
    rewrite first_delay by exact Hne. cbn [bind].
    rewrite div_ok by exact first_nonzero. cbn [bind].
    rewrite float_pow_pos. cbn [bind].
    destruct (add_delayed_spec samples (int (sr * d_ms / 1000))
                (Rpower decay (d_ms / hd 0 delays_ms)) out Hd0 Hdfit)
      as (out1 & Hrun1 & Hlen1 & Hnth1).
    rewrite Hrun1. cbn [bind].
    destruct (IH out1) as (out' & Hrun & Hlen & Hnth).
    { eapply Forall_impl; [exact Hrest |]. intros x [Hx0 Hxfit].
      split; [exact Hx0 |]. unfold len in *. rewrite Hlen1. exact Hxfit. }
    exists out'. split; [exact Hrun |]. split; [congruence |].
    intros j. rewrite Hnth, Hnth1. simpl. unfold echo at 2. lra.
Qed.

(** Truncation keeps the order of the delays, so the longest delay gives
    the largest number of frames. *)
Lemma longest_delay_frames :
  delays_ms <> [] -> Forall (fun d_ms => 0 <= d_ms) delays_ms ->
  exists longest,
    max_of delays_ms = Ok longest /\
    Forall (fun d_ms => (0 <= frames_of d_ms <= frames_of longest)%Z) delays_ms /\
    Exists (fun d_ms => frames_of d_ms = frames_of longest) delays_ms.
Proof.
  intros Hne Hpos. destruct delays_ms as [| x l] eqn:E; [contradiction |].
  simpl. eexists. split; [reflexivity |].
  destruct (foldl_max2_spec l x) as (Hge & Hall & Hin).
  set (longest := foldl max2 x l) in *.
  assert (forall d_ms, 0 <= d_ms -> d_ms <= longest ->
            (0 <= frames_of d_ms <= frames_of longest)%Z) as Hmono.
  { intros d_ms H0 Hle. unfold frames_of. split.
    - apply int_nonneg_le. apply Rmult_le_pos; [nra | lra].
    - apply int_mono. apply Rmult_le_compat_r; [lra | nra]. }
  split.
  - inversion Hpos as [| ? ? Hx Hl]; subst. constructor.
    + apply Hmono; assumption.
    + rewrite Forall_forall in *. intros y Hy. apply Hmono; auto.
  - apply Exists_exists. destruct Hin as [Hin | Hin].
    + exists x. split; [left | congruence].
    + exists longest. split; [right; apply list_elem_of_In; exact Hin | reflexivity].
Qed.

(** What [reverb] returns on well-formed arguments. *)
Lemma reverb_spec (tail_s : R) :
  delays_ms <> [] -> Forall (fun d_ms => 0 <= d_ms) delays_ms -> 0 <= tail_s ->
  exists out max_delay,
    Dsp.reverb samples sr decay delays_ms tail_s = Ok out /\
    Forall (fun d_ms => (int (sr * d_ms / 1000) <= max_delay)%Z) delays_ms /\
    Exists (fun d_ms => int (sr * d_ms / 1000) = max_delay) delays_ms /\
    len out = (len samples + max_delay + int (sr * tail_s))%Z /\
    forall j : nat,
      nth j out 0 =
      nth j samples 0 +
      Rsum (map (fun d_ms => echo samples sr decay (hd 0 delays_ms) d_ms j)
              delays_ms).
Proof.
  intros Hne Hpos Htail.
  destruct (longest_delay_frames Hne Hpos) as (longest & Hmax & Hall & Hex).
  unfold Dsp.reverb. rewrite Hmax. cbn [bind].
  fold (frames_of longest).
  assert (0 <= frames_of longest)%Z as HD.
  { apply Exists_exists in Hex as (x & Hx & Heq).
    rewrite Forall_forall in Hall. apply Hall in Hx. lia. }
  assert (0 <= int (sr * tail_s))%Z as HT.
  { apply int_nonneg_le. nra. }
  set (n := (len samples + frames_of longest + int (sr * tail_s))%Z).
  assert (len (zeros n) = n) as Hn.
  { rewrite len_zeros. unfold n, len. lia. }
  destruct (add_whole samples (zeros n)) as (out1 & Hrun1 & Hlen1 & Hnth1).
  { rewrite Hn. unfold n. lia. }
  unfold enumerate in Hrun1. unfold enumerate. rewrite Hrun1. cbn [bind].
  assert (len out1 = n) as Hn1 by (unfold len in *; rewrite Hlen1; exact Hn).
  destruct (taps_loop delays_ms out1 Hne) as (out & Hrun & Hlen & Hnth).
  { eapply Forall_impl; [exact Hall |]. intros x Hx. simpl in Hx.
    split; [lia |]. rewrite Hn1. unfold n. lia. }
  exists out, (frames_of longest). split; [exact Hrun |].
  split; [| split; [exact Hex | split]].
  - eapply Forall_impl; [exact Hall |]. intros x Hx. simpl in Hx.
    unfold frames_of in *. lia.
  - unfold len in *. rewrite Hlen. exact Hn1.
  - intros j. rewrite Hnth, Hnth1, nth_zeros. lra.
Qed.

End Reverb.

Section ReverbClaims.





End ReverbClaims.

(** ** Empty buffers and parameters out of range *)

Section Rejection.

(** [lowpass] returns on a non-empty buffer whenever its three divisions
    are defined; the signs of cutoff and sample rate play no part. *)
Lemma lowpass_returns (samples : list R) (cutoff_hz sr : R) (poles : Z) :
  samples <> [] -> cutoff_hz <> 0 -> sr <> 0 ->
  1 / (2 * PI * cutoff_hz) + 1 / sr <> 0 ->
  exists out, Dsp.lowpass samples cutoff_hz sr poles = Ok out /\
    length out = length samples.
Proof.
  intros Hne Hc Hs Hsum. pose proof PI_RGT_0 as HPI.
  unfold Dsp.lowpass.
  rewrite div_ok by (intros E; apply Rmult_integral in E as [E | E]; lra).
  cbn [bind]. rewrite div_ok by exact Hs. cbn [bind].
  rewrite div_ok by exact Hsum. cbn [bind].
  apply lowpass_stages_length, Hne.
Qed.

Lemma lowpass_zero_cutoff (samples : list R) (sr : R) (poles : Z) :
  Dsp.lowpass samples 0 sr poles = Raise ZeroDivisionError.
Proof.
  unfold Dsp.lowpass. replace (2 * PI * 0) with 0 by ring.
  rewrite div_zero. reflexivity.
Qed.

Lemma lowpass_zero_rate (samples : list R) (cutoff_hz : R) (poles : Z) :
  cutoff_hz <> 0 -> Dsp.lowpass samples cutoff_hz 0 poles = Raise ZeroDivisionError.
Proof.
  intros Hc. pose proof PI_RGT_0 as HPI. unfold Dsp.lowpass.
  rewrite div_ok by (intros E; apply Rmult_integral in E as [E | E]; lra).
  cbn [bind]. rewrite div_zero. reflexivity.
Qed.

Lemma trim_silence_empty (threshold : R) (chunk : nat) :
  Dsp.trim_silence [] threshold chunk = [].
Proof.
  unfold Dsp.trim_silence. rewrite trim_loop_unfold.
  unfold Dsp.trim_guard. simpl length.
  rewrite bool_decide_eq_false_2 by lia. reflexivity.
Qed.

Lemma fade_out_empty (fade_ms sr : R) :
  Dsp.fade_out [] fade_ms sr =
  Ok (zeros (int (sr * 0.05)) ++ [] ++ zeros (int (sr * 0.05))).
Proof.
  unfold Dsp.fade_out. rewrite seqZ_nil by (unfold len; simpl; lia).
  reflexivity.
Qed.

Lemma normalize_empty (peak : R) : Dsp.normalize [] peak = Raise ValueError.
Proof. reflexivity. Qed.

Lemma negative_cutoff_defined : 1 / (2 * PI * -2800) + 1 / 44100 <> 0.
Proof.
  pose proof PI_RGT_0 as HPI. pose proof PI_4 as HPI4. intros H.
  assert ((1 / (2 * PI * -2800) + 1 / 44100) * (5600 * PI)
          = -1 + 5600 * PI / 44100) as E by (field; lra).
  rewrite H in E. lra.
Qed.

(** C3, as amended: on a zero-length buffer normalize raises the
    ValueError of max() on an empty sequence, trim_silence returns the
    empty buffer and fade_out returns its two blocks of padding; lowpass
    raises ZeroDivisionError when cutoff_hz or the sample rate is 0, and
    for any other cutoff and sample rate, negative ones included, with
    1/(2 pi cutoff_hz) + 1/sr not 0, it computes a result on a non-empty
    buffer.  The code has no error types of its own. *)
Theorem empty_buffers_and_bad_parameters :
  (forall peak, Dsp.normalize [] peak = Raise ValueError) /\
  (forall threshold chunk, Dsp.trim_silence [] threshold chunk = []) /\
  (forall fade_ms sr,
     Dsp.fade_out [] fade_ms sr =
     Ok (zeros (int (sr * 0.05)) ++ [] ++ zeros (int (sr * 0.05)))) /\
  (forall samples sr poles,
     Dsp.lowpass samples 0 sr poles = Raise ZeroDivisionError) /\
  (forall samples cutoff_hz poles, cutoff_hz <> 0 ->
     Dsp.lowpass samples cutoff_hz 0 poles = Raise ZeroDivisionError) /\
  (forall samples cutoff_hz sr poles,
     samples <> [] -> cutoff_hz <> 0 -> sr <> 0 ->
     1 / (2 * PI * cutoff_hz) + 1 / sr <> 0 ->
     exists out, Dsp.lowpass samples cutoff_hz sr poles = Ok out /\
       length out = length samples).
Proof.
  split; [exact normalize_empty |].
  split; [exact trim_silence_empty |].
  split; [exact fade_out_empty |].
  split; [exact lowpass_zero_cutoff |].
  split; [exact lowpass_zero_rate | exact lowpass_returns].
Qed.

Lemma empty_buffers_and_bad_parameters_witness :
  Dsp.lowpass [1; 2] 1800 0 3 = Raise ZeroDivisionError /\
  exists out, Dsp.lowpass [1; 2] 1800 (-44100) 3 = Ok out /\ length out = 2%nat.
Proof.
  destruct empty_buffers_and_bad_parameters as (_ & _ & _ & _ & Hrate & Hret).
  split.
  - apply Hrate. lra.
  - apply Hret; [discriminate | lra | lra |].
    pose proof PI_RGT_0 as HPI. intros H.
    assert ((1 / (2 * PI * 1800) + 1 / -44100) * (3600 * PI)
            = 1 - 3600 * PI / 44100) as E by (field; lra).
    rewrite H in E. pose proof PI_4. lra.
Defined.

(** C3 as stated fails: trim_silence and fade_out accept a zero-length
    buffer, normalize raises ValueError on it, and lowpass with the
    negative cutoff -2800 Hz returns a buffer. *)
Lemma empty_buffer_accepted :
  Dsp.trim_silence [] 0.0001 200 = [] /\
  Dsp.fade_out [] 200 44100 = Ok (zeros 2205 ++ [] ++ zeros 2205) /\
  Dsp.normalize [] 0.9 = Raise ValueError /\
  exists out, Dsp.lowpass [1] (-2800) 44100 2 = Ok out /\ length out = 1%nat.
Proof.
  split; [apply trim_silence_empty |].
  split.
  { rewrite fade_out_empty.
    replace (int (44100 * 0.05)) with 2205%Z; [reflexivity |].
    symmetry. apply int_floor_eq; lra. }
  split; [reflexivity |].
  apply lowpass_returns; [discriminate | lra | lra |].
  apply negative_cutoff_defined.
Qed.

End Rejection.

(** ** The chord mixer *)

Section Chord.
Import Generate.

Lemma max_len_spec (voices : list (list R)) :
  voices <> [] ->
  exists n, max_len voices = Ok n /\
    Forall (fun v => (len v <= n)%Z) voices /\
    Exists (fun v => len v = n) voices.
Proof.
  destruct voices as [| v vs]; [contradiction |]. intros _. simpl.
  eexists. split; [reflexivity |].
  set (step := fun (m : Z) (w : list R) => if decide (len w > m)%Z then len w else m).
  assert (forall l a,
            (a <= foldl step a l)%Z /\
            Forall (fun w => (len w <= foldl step a l)%Z) l /\
            (foldl step a l = a \/ Exists (fun w => len w = foldl step a l) l))
    as Hfold.
  { induction l as [| w l IH]; intros a; simpl.
    - split; [lia |]. split; [constructor | left; reflexivity].
    - destruct (IH (step a w)) as (Hge & Hall & Hin).
      assert ((a <= step a w)%Z /\ (len w <= step a w)%Z /\
              (step a w = a \/ step a w = len w)) as (Ha & Hw & Hor).
      { unfold step. case_decide; lia. }
      split; [lia |]. split.
      + constructor; [lia | exact Hall].
      + destruct Hin as [Hin | Hin].
        * destruct Hor as [Hor | Hor]; [left; congruence |].
          right. left. congruence.
        * right. right. exact Hin. }
  destruct (Hfold vs (len v)) as (Hge & Hall & Hin).
  split.
  - constructor; assumption.
  - destruct Hin as [Hin | Hin]; [left; congruence | right; exact Hin].
Qed.

(** The loop over the voices, into any buffer at least as long as each. *)
Lemma mix_voices (voices : list (list R)) (mixed : list R) :
  Forall (fun v => (len v <= len mixed)%Z) voices ->
  exists mixed',
    foldM add_voice mixed voices = Ok mixed' /\
    length mixed' = length mixed /\
    forall j : nat,
      nth j mixed' 0 = nth j mixed 0 + Rsum (map (fun v => nth j v 0) voices).
Proof.
  revert mixed. induction voices as [| v vs IH]; intros mixed Hfit.
  - exists mixed. simpl. split; [reflexivity |]. split; [reflexivity |].
    intros j. lra.
  - inversion Hfit as [| ? ? Hv Hvs]; subst. cbn [foldM].
    destruct (add_whole v mixed Hv) as (m1 & Hrun1 & Hlen1 & Hnth1).
    unfold add_voice at 1. rewrite Hrun1. cbn [bind].
    destruct (IH m1) as (m' & Hrun & Hlen & Hnth).
    { eapply Forall_impl; [exact Hvs |]. intros w Hw. simpl in Hw.
      unfold len in *. rewrite Hlen1. exact Hw. }
    exists m'. split; [exact Hrun |]. split; [congruence |].
    intros j. rewrite Hnth, Hnth1. simpl. lra.
Qed.

(** The mix for any synthesis function whose voices all return. *)
Lemma chord_mix_spec (synth_fn : R -> R -> R -> R -> result (list R))
  (freqs : list R) (duration_ms volume : R) (voices : list (list R)) :
  freqs <> [] ->
  mapM (fun f => synth_fn f duration_ms (volume / IZR (len freqs)) SR) freqs
    = Ok voices ->
  exists mixed,
    chord_mix synth_fn freqs duration_ms volume = Ok mixed /\
    Exists (fun v => length mixed = length v) voices /\
    Forall (fun v => (length v <= length mixed)%nat) voices /\
    forall j : nat, nth j mixed 0 = Rsum (map (fun v => nth j v 0) voices).
Proof.
  intros Hne Hvoices. unfold chord_mix.
  assert (IZR (len freqs) <> 0) as Hn.
  { apply not_0_IZR. unfold len. destruct freqs; [contradiction | simpl; lia]. }
  rewrite div_ok by exact Hn. cbn [bind]. rewrite Hvoices. cbn [bind].
  assert (voices <> []) as Hvne.
  { apply mapM_length in Hvoices. intros ->. destruct freqs; [contradiction | discriminate]. }
  destruct (max_len_spec voices Hvne) as (n & Hmax & Hall & Hex).
  rewrite Hmax. cbn [bind].
  assert (0 <= n)%Z as Hn0.
  { apply Exists_exists in Hex as (v & _ & <-). unfold len. lia. }
  assert (len (zeros n) = n) as Hz by (rewrite len_zeros; lia).
  destruct (mix_voices voices (zeros n)) as (mixed & Hrun & Hlen & Hnth).
  { rewrite Hz. exact Hall. }
  assert (len mixed = n) as Hm by (unfold len in *; rewrite Hlen; exact Hz).
  exists mixed. split; [exact Hrun |]. split; [| split].
  - eapply Exists_impl; [exact Hex |]. intros v Hv. simpl in Hv.
    unfold len in *. lia.
  - eapply Forall_impl; [exact Hall |]. intros v Hv. simpl in Hv.
    unfold len in *. lia.
  - intros j. rewrite Hnth, nth_zeros. lra.
Qed.



End Chord.

(** * Further properties of the code *)

(** ** The fade shaper *)

Section FadeOut.

Lemma mulitem_Ok (l : list R) (k : Z) (v : R) :
  (0 <= k < len l)%Z ->
  mulitem l k v = Ok (<[Z.to_nat k := nth (Z.to_nat k) l 0 * v]> l).
Proof.
  intros H. unfold mulitem. rewrite getitem_Ok by exact H. cbn [bind].
  apply setitem_Ok, H.
Qed.

Variable F : Z.
Variable start : Z.

Let body (out : list R) (i : Z) : result (list R) :=
  t <- IZR i /? IZR F ;;
  mulitem out (start + i) (0.5 * (1 + cos (PI * t))).

(** The fade loop from position [k] on: every sample it reaches is
    multiplied by its gain, the others are kept. *)
Lemma fade_loop (m k : nat) (out : list R) :
  (1 <= F)%Z -> (0 <= start)%Z ->
  (start + Z.of_nat k + Z.of_nat m <= len out)%Z ->
  exists out',
    foldM body out (seqZ (Z.of_nat k) (Z.of_nat m)) = Ok out' /\
    length out' = length out /\
    forall j : nat,
      nth j out' 0 =
      if decide (start + Z.of_nat k <= Z.of_nat j < start + Z.of_nat k + Z.of_nat m)%Z
      then nth j out 0 * fade_gain F (Z.of_nat j - start)
      else nth j out 0.
Proof.
  intros HF Hstart. revert k out. induction m as [| m IH]; intros k out Hfit.
  - exists out. rewrite seqZ_nil by lia. simpl.
    split; [reflexivity |]. split; [reflexivity |].
    intros j. case_decide; [lia | reflexivity].
  - rewrite seqZ_cons by lia. cbn [foldM]. unfold body at 1.
    rewrite div_ok by (apply not_0_IZR; lia). cbn [bind].
    rewrite mulitem_Ok by lia. cbn [bind].
    replace (Z.succ (Z.of_nat k)) with (Z.of_nat (S k)) by lia.
    replace (Z.pred (Z.of_nat (S m))) with (Z.of_nat m) by lia.
    set (n := Z.to_nat (start + Z.of_nat k)).
    set (out1 := <[n := _]> out).
    destruct (IH (S k) out1) as (out' & Hrun & Hlen & Hnth).
    { unfold out1, len. rewrite length_insert. unfold len in Hfit. lia. }
    exists out'. split; [exact Hrun |]. split.
    { rewrite Hlen. unfold out1. apply length_insert. }
    intros j. rewrite Hnth.
    destruct (decide (j = n)) as [-> | Hne].
    + unfold out1. rewrite nth_insert_eq by (unfold len in Hfit; lia).
      repeat case_decide; try lia.
      unfold fade_gain. replace (Z.of_nat n - start)%Z with (Z.of_nat k) by lia.
      reflexivity.
    + unfold out1. rewrite nth_insert_ne by (intros E; apply Hne; symmetry; exact E).
      repeat case_decide; try lia; reflexivity.
Qed.

End FadeOut.

Section FadeOutSpec.

(** A fade gain lies in (0, 1] inside the fade and is 1 at its start. *)
Lemma fade_gain_range (F i : Z) :
  (0 <= i < F)%Z -> 0 < fade_gain F i <= 1.
Proof.
  intros H. unfold fade_gain.
  assert (0 < IZR F) as HF by (apply IZR_lt; lia).
  set (t := IZR i / IZR F).
  assert (0 <= t < 1) as Ht.
  { unfold t. split.
    - apply Rmult_le_pos; [apply IZR_le; lia | left; apply Rinv_0_lt_compat, HF].
    - apply Rmult_lt_reg_r with (IZR F); [exact HF |].
      unfold Rdiv. rewrite Rmult_assoc, Rinv_l by lra.
      rewrite Rmult_1_r, Rmult_1_l. apply IZR_lt. lia. }
  pose proof PI_RGT_0 as HPI.
  assert (0 <= PI * t) as Hlo by (apply Rmult_le_pos; lra).
  assert (PI * t < PI) as Hhi by nra.
  pose proof (cos_decreasing_1 (PI * t) PI Hlo ltac:(lra) ltac:(lra) ltac:(lra) Hhi) as Hdec.
  rewrite cos_PI in Hdec.
  pose proof (COS_bound (PI * t)) as [_ Hub].
  lra.
Qed.

Lemma fade_gain_start (F : Z) : fade_gain F 0 = 1.
Proof.
  unfold fade_gain. replace (PI * (0 / IZR F)) with 0 by (unfold Rdiv; ring).
  rewrite cos_0. lra.
Qed.

(** What [fade_out] returns: it never raises; the result is the input
    between two blocks of zeros, with the last [F] samples multiplied by
    their gains, [F] being the fade length clipped to the buffer. *)
Lemma fade_out_spec (samples : list R) (fade_ms sr : R) :
  let F := Z.min (int (sr * fade_ms / 1000)) (len samples) in
  let pad := zeros (int (sr * 0.05)) in
  exists body,
    Dsp.fade_out samples fade_ms sr = Ok (pad ++ body ++ pad) /\
    length body = length samples /\
    forall j : nat,
      nth j body 0 =
      if decide (len samples - F <= Z.of_nat j < len samples)%Z
      then nth j samples 0 * fade_gain F (Z.of_nat j - (len samples - F))
      else nth j samples 0.
Proof.
  intros F pad. unfold Dsp.fade_out. fold F. fold pad.
  destruct (decide (1 <= F)%Z) as [HF | HF].
  - destruct (fade_loop F (len samples - F) (Z.to_nat F) 0 samples)
      as (body & Hrun & Hlen & Hnth); [lia | unfold F; lia | unfold F; lia |].
    rewrite Z2Nat.id in Hrun by lia. change (Z.of_nat 0) with 0%Z in Hrun.
    rewrite Hrun. cbn [bind]. exists body.
    split; [reflexivity |]. split; [exact Hlen |].
    intros j. rewrite Hnth. rewrite Z2Nat.id by lia.
    repeat case_decide; try lia; reflexivity.
  - rewrite seqZ_nil by lia. cbn [foldM bind]. exists samples.
    split; [reflexivity |]. split; [reflexivity |].
    intros j. case_decide; [lia | reflexivity].
Qed.

End FadeOutSpec.

Section FadeOutProperties.

Lemma nth_padded (pad body : list R) (j : nat) :
  nth j (pad ++ body ++ pad) 0 =
  if decide (j < length pad)%nat then nth j pad 0
  else if decide (j < length pad + length body)%nat
       then nth (j - length pad) body 0
       else nth (j - length pad - length body) pad 0.
Proof.
  repeat case_decide.
  - apply app_nth1. lia.
  - rewrite app_nth2 by lia. apply app_nth1. lia.
  - rewrite app_nth2 by lia. rewrite app_nth2 by lia. reflexivity.
Qed.

(** X1: fade_out never raises.  Its result is the input between two blocks
    of max(0, int(sr * 0.05)) zeros; the input samples before the fade
    are kept as they are, and sample j of the last F samples is
    multiplied by 0.5 * (1 + cos(pi * i / F)), i counting from the start
    of the fade, where F = min(int(sr * fade_ms / 1000), len(samples)). *)
Theorem fade_out_pads_and_fades (samples : list R) (fade_ms sr : R) :
  let F := Z.min (int (sr * fade_ms / 1000)) (len samples) in
  let P := Z.to_nat (int (sr * 0.05)) in
  exists out,
    Dsp.fade_out samples fade_ms sr = Ok out /\
    length out = (P + length samples + P)%nat /\
    (forall j, (j < P)%nat -> nth j out 0 = 0) /\
    (forall j, (P + length samples <= j)%nat -> nth j out 0 = 0) /\
    (forall j, (Z.of_nat j < len samples - F)%Z ->
       nth (P + j) out 0 = nth j samples 0) /\
    (forall j, (len samples - F <= Z.of_nat j < len samples)%Z ->
       nth (P + j) out 0 =
       nth j samples 0 * fade_gain F (Z.of_nat j - (len samples - F))).
Proof.
  intros F P.
  destruct (fade_out_spec samples fade_ms sr) as (body & Hrun & Hlen & Hnth).
  fold F in Hrun, Hnth.
  set (pad := zeros (int (sr * 0.05))) in *.
  assert (length pad = P) as HP by (unfold pad, zeros; apply length_replicate).
  exists (pad ++ body ++ pad). split; [exact Hrun |].
  split; [rewrite !length_app, HP, Hlen; lia |].
  split; [| split; [| split]].
  - intros j Hj. rewrite nth_padded, HP. case_decide; [| lia]. apply nth_zeros.
  - intros j Hj. rewrite nth_padded, HP, Hlen.
    repeat case_decide; try lia. apply nth_zeros.
  - intros j Hj. rewrite nth_padded, HP, Hlen. unfold len in *.
    repeat case_decide; try lia.
    + replace (P + j - P)%nat with j by lia. rewrite Hnth.
      case_decide; [lia | reflexivity].
    + unfold pad. rewrite nth_zeros, nth_overflow by lia. reflexivity.
  - intros j Hj. rewrite nth_padded, HP, Hlen. unfold len in *.
    repeat case_decide; try lia.
    replace (P + j - P)%nat with j by lia. rewrite Hnth.
    case_decide; [reflexivity | lia].
Qed.

Lemma fade_out_pads_and_fades_witness :
  exists out,
    Dsp.fade_out [1; 1; 1; 1] 200 44100 = Ok out /\
    length out = 4414%nat /\
    nth 2205 out 0 = 1 /\ nth 0 out 0 = 0.
Proof.
  assert (int (44100 * 0.05) = 2205%Z) as HP by (apply int_floor_eq; lra).
  assert (int (44100 * 200 / 1000) = 8820%Z) as HF by (apply int_floor_eq; lra).
  destruct (fade_out_pads_and_fades [1; 1; 1; 1] 200 44100)
    as (out & Hrun & Hlen & Hpad & _ & _ & Hfade).
  rewrite HP, HF in *. unfold len in *. simpl length in *.
  exists out. split; [exact Hrun |]. split; [rewrite Hlen; reflexivity |]. split.
  - replace 2205%nat with (Z.to_nat 2205 + 0)%nat by lia.
    rewrite Hfade by lia. simpl. rewrite fade_gain_start. lra.
  - apply Hpad. lia.
Defined.

(** X2: The fade of fade_out never amplifies and never silences: each
    sample of the faded input has absolute value at most that of the
    input sample, and it is 0 only where the input sample is 0; the exact
    zeros at the end of the result are the padding. *)
Theorem fade_out_attenuates (samples : list R) (fade_ms sr : R) (j : nat) :
  (j < length samples)%nat ->
  let P := Z.to_nat (int (sr * 0.05)) in
  exists out,
    Dsp.fade_out samples fade_ms sr = Ok out /\
    Rabs (nth (P + j) out 0) <= Rabs (nth j samples 0) /\
    (nth (P + j) out 0 = 0 <-> nth j samples 0 = 0).
Proof.
  intros Hj P.
  destruct (fade_out_spec samples fade_ms sr) as (body & Hrun & Hlen & Hnth).
  set (F := Z.min (int (sr * fade_ms / 1000)) (len samples)) in *.
  set (pad := zeros (int (sr * 0.05))) in *.
  assert (length pad = P) as HP by (unfold pad, zeros; apply length_replicate).
  exists (pad ++ body ++ pad). split; [exact Hrun |].
  rewrite nth_padded, HP, Hlen. repeat case_decide; try lia.
  replace (P + j - P)%nat with j by lia. rewrite Hnth.
  case_decide as Hin.
  - pose proof (fade_gain_range F (Z.of_nat j - (len samples - F)) ltac:(unfold len in *; lia))
      as Hg.
    set (g := fade_gain F _) in *. split.
    + rewrite Rabs_mult, (Rabs_pos_eq g) by lra.
      pose proof (Rabs_pos (nth j samples 0)). nra.
    + split; intros Hz; [nra | rewrite Hz; ring].
  - split; [lra | tauto].
Qed.

Lemma fade_out_attenuates_witness :
  exists out,
    Dsp.fade_out [0.5; -0.25] 200 44100 = Ok out /\
    Rabs (nth (Z.to_nat (int (44100 * 0.05)) + 1) out 0) <= Rabs (-0.25).
Proof.
  destruct (fade_out_attenuates [0.5; -0.25] 200 44100 1)
    as (out & Hrun & Hle & _); [simpl; lia |].
  exists out. split; [exact Hrun | exact Hle].
Defined.

End FadeOutProperties.

(** ** The normalizer as a scaling *)

Section NormalizeScaling.

(** [normalize] multiplies every sample by one factor, which is 1 or
    peak / mx. *)
Lemma normalize_scales (samples : list R) (peak : R) :
  samples <> [] ->
  exists k,
    Dsp.normalize samples peak = Ok (map (fun s => s * k) samples) /\
    (0 <= peak -> 0 <= k <= 1) /\
    (0 <= peak -> Forall (fun s => Rabs s * k <= peak) samples).
Proof.
  intros Hne. unfold Dsp.normalize.
  destruct (max_abs_spec samples Hne) as (m & Hm & Hall & s0 & Hs0 & Hm0).
  rewrite Hm. cbn [bind].
  assert (0 <= m) as Hmpos by (rewrite Hm0; apply Rabs_pos).
  set (mx := if decide (m = 0) then 1 else m).
  assert (0 < mx /\ m <= mx) as [Hmx Hle].
  { unfold mx. destruct (decide (m = 0)); lra. }
  destruct (decide (mx > peak)) as [Hgt | Hngt].
  - exists (peak / mx). rewrite mapM_scale by lra. split.
    + f_equal. apply map_ext. intros s. unfold Rdiv. ring.
    + assert (0 <= peak -> 0 <= peak / mx <= 1) as Hk.
      { intros Hp. split.
        - apply Rmult_le_pos; [exact Hp | left; apply Rinv_0_lt_compat, Hmx].
        - apply Rmult_le_reg_r with mx; [exact Hmx |].
          unfold Rdiv. rewrite Rmult_assoc, Rinv_l by lra. lra. }
      split; [exact Hk |]. intros Hp.
      eapply Forall_impl; [exact Hall |]. intros s Hs. simpl in Hs.
      assert (Rabs s * / mx <= 1) as H1.
      { apply Rmult_le_reg_r with mx; [exact Hmx |].
        rewrite Rmult_assoc, Rinv_l by lra. lra. }
      unfold Rdiv. pose proof (Rabs_pos s). nra.
  - exists 1. split.
    + f_equal. rewrite <- (map_id samples) at 1. apply map_ext. intros s. ring.
    + split; [intros _; lra |]. intros _.
      eapply Forall_impl; [exact Hall |]. intros s Hs. simpl in Hs. lra.
Qed.






End NormalizeScaling.

(** ** The quantizer's range *)

Section QuantizeRange.

Lemma int_opp (x : R) : int (- x) = (- int x)%Z.
Proof.
  destruct (Rtotal_order x 0) as [Hx | [-> | Hx]].
  - rewrite (int_neg x) by exact Hx. rewrite int_nonneg by lra. apply ZfloorN.
  - rewrite Ropp_0. replace 0 with (IZR 0) by reflexivity.
    rewrite int_IZR. reflexivity.
  - rewrite (int_nonneg x) by lra. rewrite int_neg by lra. apply ZceilN.
Qed.

Lemma clamp_opp (s : R) :
  Rmax (-1) (Rmin 1 (- s)) = - Rmax (-1) (Rmin 1 s).
Proof.
  destruct (Rle_lt_dec 1 s); [| destruct (Rle_lt_dec s (-1))].
  - rewrite (Rmin_left 1 s), (Rmin_right 1 (- s)) by lra.
    rewrite (Rmax_left (-1) (- s)), (Rmax_right (-1) 1) by lra. lra.
  - rewrite (Rmin_right 1 s), (Rmin_left 1 (- s)) by lra.
    rewrite (Rmax_left (-1) s), (Rmax_right (-1) 1) by lra. lra.
  - rewrite (Rmin_right 1 s), (Rmin_right 1 (- s)) by lra.
    rewrite (Rmax_right (-1) s), (Rmax_right (-1) (- s)) by lra. lra.
Qed.

Lemma quantize_range (s : R) : (-32767 <= Dsp.quantize s <= 32767)%Z.
Proof.
  rewrite quantize_clamp.
  assert (-1 <= Rmax (-1) (Rmin 1 s) <= 1) as Hc.
  { split; [apply Rmax_l |]. apply Rmax_lub; [lra | apply Rmin_l]. }
  split.
  - rewrite <- (int_IZR (-32767)). apply int_mono. lra.
  - rewrite <- (int_IZR 32767) at 2. apply int_mono. lra.
Qed.

(** X5: to_int16 keeps the length of the buffer and every value it produces
    lies between -32767 and 32767: it is a valid int16 and -32768 never
    occurs. *)
Theorem to_int16_fits_int16 (samples : list R) :
  length (Dsp.to_int16 samples) = length samples /\
  Forall (fun v => (-32767 <= v <= 32767)%Z) (Dsp.to_int16 samples).
Proof.
  unfold Dsp.to_int16. split; [apply length_map |].
  apply Forall_map. apply Forall_forall. intros s _. apply quantize_range.
Qed.

(** X6: The quantizer is odd and fixes zero: the value of -s is the negative
    of the value of s, because int() truncates toward zero on both sides,
    and a zero sample gives 0. *)
Theorem to_int16_odd (samples : list R) :
  Dsp.to_int16 (map Ropp samples) = map Z.opp (Dsp.to_int16 samples) /\
  Dsp.to_int16 (map (fun _ => 0) samples) = map (fun _ => 0%Z) samples.
Proof.
  unfold Dsp.to_int16. rewrite !map_map. split; apply map_ext; intros s.
  - rewrite !quantize_clamp, clamp_opp.
    rewrite <- int_opp. f_equal. ring.
  - rewrite quantize_clamp.
    rewrite Rmin_right by lra. rewrite Rmax_right by lra.
    replace (0 * 32767) with (IZR 0) by (simpl; ring). apply int_IZR.
Qed.

End QuantizeRange.

(** ** WAV frame data *)

Section WavFrames.
Import Wav.

Lemma pack_h_Done (v : Z) :
  int16 v ->
  Wav.pack_h v = Done [(v mod 256)%Z; ((v mod 65536) / 256)%Z] /\
  byte_value (v mod 256) /\ byte_value ((v mod 65536) / 256) /\
  Wav.unpack_h (v mod 256) ((v mod 65536) / 256) = v.
Proof.
  unfold int16, byte_value, Wav.pack_h, Wav.unpack_h. intros Hv.
  destruct (decide (-32768 <= v <= 32767)%Z); [| contradiction].
  split; [reflexivity |].
  repeat split; try case_decide; Z.div_mod_to_equations; lia.
Qed.


Lemma pack_Done (xs : list Z) :
  Forall int16 xs ->
  exists data,
    Wav.pack xs = Done data /\
    len data = (2 * len xs)%Z /\
    Forall byte_value data /\
    Wav.unpack_pairs data = xs.
Proof.
  induction 1 as [| v xs Hv _ (data & Hrun & Hlen & Hbytes & Hback)].
  - exists []. repeat split; constructor.
  - destruct (pack_h_Done v Hv) as (Hp & Hlo & Hhi & Hu).
    cbn [Wav.pack]. rewrite Hp, Hrun. eexists. split; [reflexivity |].
    split; [| split].
    + unfold len in *. simpl length. lia.
    + simpl. constructor; [exact Hlo |]. constructor; [exact Hhi | exact Hbytes].
    + simpl. rewrite Hu, Hback. reflexivity.
Qed.


(** X7: Round trip of the frame data: for samples that are all int16 values,
    write_wav produces two bytes per sample, each from 0 to 255, and
    unpacking that data as build_preview does gives the samples back. *)
Theorem wav_frames_round_trip (int_samples : list Z) :
  Forall int16 int_samples ->
  exists data,
    Wav.write_wav int_samples = Done data /\
    len data = (2 * len int_samples)%Z /\
    Forall byte_value data /\
    Wav.unpack (len int_samples) data = Done int_samples.
Proof.
  intros Hall. destruct (pack_Done int_samples Hall)
    as (data & Hrun & Hlen & Hbytes & Hback).
  exists data. split; [exact Hrun |]. split; [exact Hlen |].
  split; [exact Hbytes |].
  unfold Wav.unpack. rewrite Hback.
  destruct (decide (len data = 2 * len int_samples)%Z); [reflexivity | contradiction].
Qed.

Lemma wav_frames_round_trip_witness :
  Wav.write_wav [0; -1; 32767; -32768]%Z
    = Done [0; 0; 255; 255; 255; 127; 0; 128]%Z /\
  Wav.unpack 4 [0; 0; 255; 255; 255; 127; 0; 128]%Z
    = Done [0; -1; 32767; -32768]%Z.
Proof.
  destruct (wav_frames_round_trip [0; -1; 32767; -32768]%Z)
    as (data & Hrun & _ & _ & Hback).
  - repeat constructor; unfold int16; lia.
  - assert (Wav.write_wav [0; -1; 32767; -32768]%Z
            = Done [0; 0; 255; 255; 255; 127; 0; 128]%Z) as E by reflexivity.
    rewrite E in Hrun. injection Hrun as <-.
    split; [exact E | exact Hback].
Defined.


(** X9: The quantizer feeds the file writer safely: packing the output of
    to_int16 never raises struct.error and gives two bytes per sample. *)
Theorem wav_of_to_int16 (samples : list R) :
  exists data,
    Wav.write_wav (Dsp.to_int16 samples) = Done data /\
    len data = (2 * len samples)%Z /\
    Wav.unpack (len samples) data = Done (Dsp.to_int16 samples).
Proof.
  destruct (pack_Done (Dsp.to_int16 samples)) as (data & Hrun & Hlen & _ & Hback).
  { unfold Dsp.to_int16. apply Forall_map, Forall_forall. intros s _.
    pose proof (quantize_range s). unfold int16. simpl. lia. }
  assert (len (Dsp.to_int16 samples) = len samples) as Hl.
  { unfold len, Dsp.to_int16. rewrite length_map. reflexivity. }
  rewrite Hl in Hlen.
  exists data. split; [exact Hrun |]. split; [exact Hlen |].
  unfold Wav.unpack. rewrite Hback.
  destruct (decide (len data = 2 * len samples)%Z); [reflexivity | contradiction].
Qed.


End WavFrames.

(** ** The lowpass cascade *)

Section LowpassMore.

Lemma foldM_app {A S : Type} (f : S -> A -> result S) (s : S) (l1 l2 : list A) :
  foldM f s (l1 ++ l2) = bind (foldM f s l1) (fun s' => foldM f s' l2).
Proof.
  revert s. induction l1 as [| x l1 IH]; intros s; cbn [foldM app bind].
  - reflexivity.
  - destruct (f s x) as [s' |]; cbn [bind]; [apply IH | reflexivity].
Qed.

(** A loop whose body ignores the loop variable only counts its turns. *)
Lemma foldM_turns {A B S : Type} (g : S -> result S) (s : S)
  (l1 : list A) (l2 : list B) :
  length l1 = length l2 ->
  foldM (fun s _ => g s) s l1 = foldM (fun s _ => g s) s l2.
Proof.
  revert s l2. induction l1 as [| x l1 IH]; intros s [| y l2] Hlen;
    try discriminate; cbn [foldM]; [reflexivity |].
  destruct (g s) as [s' |]; cbn [bind]; [| reflexivity].
  apply IH. simpl in Hlen. lia.
Qed.

(** X11: Cascading composes: for p, q >= 0, lowpass with p + q poles is
    lowpass with q poles applied to the result of lowpass with p poles,
    exceptions included. *)
Theorem lowpass_poles_compose (samples : list R) (cutoff_hz sr : R) (p q : Z) :
  (0 <= p)%Z -> (0 <= q)%Z ->
  Dsp.lowpass samples cutoff_hz sr (p + q) =
  bind (Dsp.lowpass samples cutoff_hz sr p)
       (fun buf => Dsp.lowpass buf cutoff_hz sr q).
Proof.
  intros Hp Hq. unfold Dsp.lowpass.
  destruct (1 /? (2 * PI * cutoff_hz)) as [rc |]; cbn [bind]; [| reflexivity].
  destruct (1 /? sr) as [dt |]; cbn [bind]; [| reflexivity].
  destruct (dt /? (rc + dt)) as [alpha |]; cbn [bind]; [| reflexivity].
  rewrite seqZ_app, foldM_app by lia.
  destruct (foldM _ samples (seqZ 0 p)) as [buf |]; cbn [bind]; [| reflexivity].
  apply (foldM_turns (Dsp.lowpass_stage alpha)).
  rewrite !length_seqZ. reflexivity.
Qed.

Lemma lowpass_poles_compose_witness :
  Dsp.lowpass [1; 0; 0] 1800 44100 3 =
  bind (Dsp.lowpass [1; 0; 0] 1800 44100 1)
       (fun buf => Dsp.lowpass buf 1800 44100 2).
Proof. apply (lowpass_poles_compose [1; 0; 0] 1800 44100 1 2); lia. Defined.

(** One stage with a smoothing factor in (0, 1] keeps a bound on the
    absolute values: each output sample is a weighted mean of the
    previous output and the input. *)
Lemma lowpass_stage_bound (alpha M : R) (buf : list R) :
  0 < alpha <= 1 -> buf <> [] ->
  Forall (fun s => Rabs s <= M) buf ->
  exists out,
    Dsp.lowpass_stage alpha buf = Ok out /\
    length out = length buf /\
    Forall (fun s => Rabs s <= M) out.
Proof.
  intros Ha Hne Hin.
  destruct (lowpass_stage_spec alpha buf Hne) as (out & Hrun & Hlen & H0 & Hrec).
  exists out. split; [exact Hrun |]. split; [exact Hlen |].
  assert (forall j, (j < length buf)%nat -> Rabs (nth j buf 0) <= M) as Hb.
  { intros j Hj. rewrite Forall_forall in Hin. apply Hin.
    apply list_elem_of_In. apply nth_In. exact Hj. }
  assert (forall j, (j < length buf)%nat -> Rabs (nth j out 0) <= M) as Hout.
  { induction j as [| j IH]; intros Hj.
    - rewrite H0, Rabs_mult, (Rabs_pos_eq alpha) by lra.
      specialize (Hb 0%nat Hj). pose proof (Rabs_pos (nth 0 buf 0)). nra.
    - rewrite Hrec by lia. replace (S j - 1)%nat with j by lia.
      specialize (IH ltac:(lia)). specialize (Hb (S j) Hj).
      set (y := nth j out 0) in *. set (x := nth (S j) buf 0) in *.
      replace (y + alpha * (x - y)) with ((1 - alpha) * y + alpha * x) by ring.
      eapply Rle_trans; [apply Rabs_triang |].
      rewrite !Rabs_mult, (Rabs_pos_eq alpha), (Rabs_pos_eq (1 - alpha)) by lra.
      nra. }
  apply Forall_forall. intros s Hs. apply list_elem_of_In in Hs.
  apply (In_nth _ _ 0) in Hs as (j & Hj & <-). apply Hout. lia.
Qed.

Lemma lowpass_stages_bound (alpha M : R) (l : list Z) (buf : list R) :
  0 < alpha <= 1 -> buf <> [] ->
  Forall (fun s => Rabs s <= M) buf ->
  exists out,
    foldM (fun buf _ => Dsp.lowpass_stage alpha buf) buf l = Ok out /\
    length out = length buf /\
    Forall (fun s => Rabs s <= M) out.
Proof.
  intros Ha. revert buf. induction l as [| i l IH]; intros buf Hne Hin; cbn [foldM].
  - exists buf. split; [reflexivity |]. split; [reflexivity | exact Hin].
  - destruct (lowpass_stage_bound alpha M buf Ha Hne Hin) as (out1 & Hst & Hlen1 & Hb1).
    rewrite Hst. cbn [bind].
    destruct (IH out1) as (out & Hrun & Hlen & Hb); [| exact Hb1 |].
    + intros ->. destruct buf; [contradiction | discriminate].
    + exists out. split; [exact Hrun |]. split; [congruence | exact Hb].
Qed.

Lemma alpha_range (cutoff_hz sr : R) :
  0 < cutoff_hz -> 0 < sr ->
  0 < 1 / sr / (1 / (2 * PI * cutoff_hz) + 1 / sr) <= 1.
Proof.
  intros Hc Hs. pose proof PI_RGT_0 as HPI.
  assert (0 < 2 * PI * cutoff_hz) as H1 by nra.
  assert (0 < 1 / (2 * PI * cutoff_hz)) as H2 by (apply Rdiv_lt_0_compat; lra).
  assert (0 < 1 / sr) as H3 by (apply Rdiv_lt_0_compat; lra).
  set (rc := 1 / (2 * PI * cutoff_hz)) in *. set (dt := 1 / sr) in *.
  split.
  - apply Rdiv_lt_0_compat; lra.
  - apply Rmult_le_reg_r with (rc + dt); [lra |].
    unfold Rdiv. rewrite Rmult_assoc, Rinv_l by lra. lra.
Qed.

(** X12: The filter never overshoots: for cutoff_hz > 0, sample rate > 0 and
    any number of poles, if every input sample has absolute value at most
    M then so has every output sample (so a silent buffer stays silent
    and a signal within [-1, 1] stays within it). *)
Theorem lowpass_never_overshoots (samples : list R) (cutoff_hz sr M : R)
  (poles : Z) :
  samples <> [] -> 0 < cutoff_hz -> 0 < sr ->
  Forall (fun s => Rabs s <= M) samples ->
  exists out,
    Dsp.lowpass samples cutoff_hz sr poles = Ok out /\
    length out = length samples /\
    Forall (fun s => Rabs s <= M) out.
Proof.
  intros Hne Hc Hs Hin.
  destruct (lowpass_alpha cutoff_hz sr Hc Hs) as (Hrc & Hdt & Halpha).
  unfold Dsp.lowpass. rewrite Hrc. cbn [bind]. rewrite Hdt. cbn [bind].
  rewrite Halpha. cbn [bind].
  apply lowpass_stages_bound; [apply alpha_range; assumption | exact Hne | exact Hin].
Qed.

Lemma lowpass_never_overshoots_witness :
  exists out,
    Dsp.lowpass [1; -1; 0.5] 1800 44100 3 = Ok out /\
    Forall (fun s => Rabs s <= 1) out.
Proof.
  destruct (lowpass_never_overshoots [1; -1; 0.5] 1800 44100 1 3)
    as (out & Hrun & _ & Hb); [discriminate | lra | lra | |].
  - repeat (constructor; [unfold Rabs; destruct (Rcase_abs _); lra |]).
    constructor.
  - exists out. split; assumption.
Defined.

End LowpassMore.

(** ** The silence trimmer at its edges *)

Section TrimEdges.

Variable threshold : R.
Variable chunk : nat.

Lemma trim_loop_length_le (out : list R) :
  (length (Dsp.trim_loop threshold chunk out) <= length out)%nat.
Proof.
  destruct (trim_loop_spec threshold chunk out) as (removed & Heq & _).
  rewrite Heq at 2. rewrite length_app. lia.
Qed.

(** With a block size of at least 1 the loop never empties a buffer. *)
Lemma trim_loop_nonempty (out : list R) :
  (1 <= chunk)%nat -> out <> [] -> Dsp.trim_loop threshold chunk out <> [].
Proof.
  intros Hc. induction out as [out IH] using (induction_ltof1 _ (@length R)).
  unfold ltof in IH. intros Hne. rewrite trim_loop_unfold.
  destruct (Dsp.trim_guard threshold chunk out) eqn:Hg; [| exact Hne].
  apply IH.
  - apply drop_last_shorter with threshold. exact Hg.
  - apply andb_prop in Hg as [Hlen _]. apply bool_decide_eq_true in Hlen.
    unfold Dsp.drop_last. destruct (decide (chunk = 0%nat)); [lia |].
    intros E. apply (f_equal length) in E. rewrite length_take in E.
    simpl in E. lia.
Qed.



(** X14: With a block size of at least 1, trim_silence never returns an empty
    buffer for a non-empty one and never lengthens; with block size 0 a
    non-empty buffer that is silent throughout is erased entirely. *)
Theorem trim_silence_never_empties (samples : list R) :
  samples <> [] ->
  ((1 <= chunk)%nat ->
   Dsp.trim_silence samples threshold chunk <> [] /\
   (length (Dsp.trim_silence samples threshold chunk) <= length samples)%nat) /\
  (chunk = 0%nat -> Forall (fun s => Rabs s < threshold) samples ->
   Dsp.trim_silence samples threshold chunk = []).
Proof.
  intros Hne. unfold Dsp.trim_silence. split.
  - intros Hc. split; [apply trim_loop_nonempty; assumption |].
    apply trim_loop_length_le.
  - intros Hc Hsil. rewrite trim_loop_unfold.
    assert (Dsp.trim_guard threshold chunk samples = true) as Hg.
    { unfold Dsp.trim_guard, Dsp.last_chunk, Dsp.silent. subst chunk. simpl.
      apply andb_true_intro. split.
      - apply bool_decide_eq_true. destruct samples; [contradiction | simpl; lia].
      - apply forallb_forall. intros s Hs. apply bool_decide_eq_true.
        rewrite Forall_forall in Hsil. apply Hsil, list_elem_of_In, Hs. }
    rewrite Hg. unfold Dsp.drop_last. subst chunk. simpl.
    rewrite trim_loop_unfold. unfold Dsp.trim_guard. simpl length.
    rewrite bool_decide_eq_false_2 by lia. reflexivity.
Qed.

End TrimEdges.


Lemma trim_silence_never_empties_witness :
  Dsp.trim_silence [0; 0; 0] 0.0001 2 <> [] /\
  Dsp.trim_silence [0; 0; 0] 0.0001 0 = [].
Proof.
  destruct (trim_silence_never_empties 0.0001 2 [0; 0; 0]) as [H _]; [discriminate |].
  destruct (trim_silence_never_empties 0.0001 0 [0; 0; 0]) as [_ H']; [discriminate |].
  split; [apply H; lia |]. apply H'; [reflexivity |].
  repeat constructor; rewrite Rabs_R0; lra.
Defined.

(** ** The DSP chain end to end *)

Section Process.
Import Generate.

Lemma quantize_zero : Dsp.quantize 0 = 0%Z.
Proof.
  rewrite quantize_clamp. rewrite Rmin_right by lra. rewrite Rmax_right by lra.
  replace (0 * 32767) with (IZR 0) by (simpl; ring). apply int_IZR.
Qed.

Lemma quantize_within_peak (x : R) :
  Rabs x <= 0.9 -> (-29490 <= Dsp.quantize x <= 29490)%Z.
Proof.
  intros Hx.
  assert (-0.9 <= x <= 0.9) as Hx'.
  { unfold Rabs in Hx. destruct (Rcase_abs x); lra. }
  clear Hx. rename Hx' into Hx.
  assert (Dsp.quantize 0.9 = 29490%Z) as Hhi.
  { rewrite quantize_clamp. rewrite Rmin_right by lra. rewrite Rmax_right by lra.
    apply int_floor_eq; lra. }
  assert (Dsp.quantize (-0.9) = (-29490)%Z) as Hlo.
  { rewrite quantize_clamp. rewrite Rmin_right by lra. rewrite Rmax_right by lra.
    replace (-0.9 * 32767) with (- (0.9 * 32767)) by lra.
    rewrite int_opp. rewrite (int_floor_eq (0.9 * 32767) 29490) by lra.
    reflexivity. }
  pose proof (quantize_mono (-0.9) x ltac:(lra)).
  pose proof (quantize_mono x 0.9 ltac:(lra)). lia.
Qed.

Lemma nth_to_int16 (l : list R) (j : nat) :
  nth j (Dsp.to_int16 l) 0%Z = Dsp.quantize (nth j l 0).
Proof.
  unfold Dsp.to_int16. rewrite <- quantize_zero at 1. apply map_nth.
Qed.

Lemma nth_scaled (l : list R) (k : R) (j : nat) :
  nth j (map (fun s => s * k) l) 0 = nth j l 0 * k.
Proof.
  replace 0 with (0 * k) at 1 by ring. apply (map_nth (fun s => s * k)).
Qed.

(** The frames of the preset taps; the longest, 449 ms, is 19800 frames. *)
Lemma reverb_delays_longest (max_delay : Z) :
  Forall (fun d_ms => (int (SR * d_ms / 1000) <= max_delay)%Z) REVERB_DELAYS ->
  Exists (fun d_ms => int (SR * d_ms / 1000) = max_delay) REVERB_DELAYS ->
  max_delay = 19800%Z.
Proof.
  unfold REVERB_DELAYS, SR. intros Hall Hex.
  assert (int (44100 * 449 / 1000) = 19800%Z) as H449 by (apply int_floor_eq; lra).
  assert (forall d, 0 <= d <= 449 -> (int (44100 * d / 1000) <= 19800)%Z) as Hle.
  { intros d Hd. rewrite <- H449. apply int_mono. lra. }
  assert (19800 <= max_delay)%Z.
  { rewrite Forall_forall in Hall. rewrite <- H449. apply (Hall 449).
    repeat (first [left | right]). }
  apply Exists_exists in Hex as (d & Hd & <-).
  assert (0 <= d <= 449) as Hr.
  { apply list_elem_of_In in Hd. simpl in Hd.
    repeat (destruct Hd as [<- | Hd]; [lra |]). contradiction. }
  specialize (Hle d Hr). lia.
Qed.

(** [process] on a non-empty buffer. *)
Lemma process_spec (samples : list R) :
  samples <> [] ->
  exists out, process samples = Ok out /\ finished (len samples) out.
Proof.
  intros Hne. unfold process.
  destruct (lowpass_returns samples LOWPASS_HZ SR LOWPASS_POLES Hne)
    as (s1 & Hlow & Hlen1).
  { unfold LOWPASS_HZ. lra. } { unfold SR. lra. }
  { unfold LOWPASS_HZ, SR. pose proof PI_RGT_0.
    assert (0 < 1 / (2 * PI * 1800)) by (apply Rdiv_lt_0_compat; lra). lra. }
  rewrite Hlow. cbn [bind].
  destruct (reverb_spec s1 SR REVERB_DECAY REVERB_DELAYS) with (tail_s := 1.5)
    as (s2 & max_delay & Hrev & Hall & Hex & Hlen2 & _).
  { unfold SR. lra. } { unfold REVERB_DECAY. lra. }
  { unfold REVERB_DELAYS. simpl. lra. } { discriminate. }
  { unfold REVERB_DELAYS. repeat (constructor; [lra |]). constructor. }
  { lra. }
  rewrite Hrev. cbn [bind].
  rewrite (reverb_delays_longest max_delay Hall Hex) in Hlen2.
  assert (int (SR * 1.5) = 66150%Z) as Htail by (unfold SR; apply int_floor_eq; lra).
  rewrite Htail in Hlen2.
  set (s3 := Dsp.trim_silence s2 0.0001 200).
  assert (s2 <> []) as Hne2.
  { intros ->. unfold len in Hlen2. simpl in Hlen2. lia. }
  assert (s3 <> []) as Hne3 by (apply trim_loop_nonempty; [lia | exact Hne2]).
  pose proof (trim_loop_length_le 0.0001 200 s2) as Hle3. fold (Dsp.trim_silence s2 0.0001 200) in Hle3.
  fold s3 in Hle3.
  destruct (fade_out_spec s3 200 SR) as (body & Hfade & Hlenb & _).
  assert (int (SR * 0.05) = 2205%Z) as Hpad by (unfold SR; apply int_floor_eq; lra).
  rewrite Hpad in Hfade. rewrite Hfade. cbn [bind].
  set (pad := zeros 2205) in *. set (s4 := pad ++ body ++ pad) in *.
  assert (length pad = 2205%nat) as HP by (unfold pad, zeros; apply length_replicate).
  assert (s4 <> []) as Hne4.
  { intros E. apply (f_equal length) in E. unfold s4 in E.
    rewrite !length_app, HP in E. simpl in E. lia. }
  destruct (normalize_scales s4 0.9 Hne4) as (k & Hnorm & Hk & Hb).
  specialize (Hk ltac:(lra)). specialize (Hb ltac:(lra)).
  rewrite Hnorm. cbn [bind]. eexists. split; [reflexivity |].
  assert (1 <= length body)%nat as Hbody.
  { rewrite Hlenb. destruct s3; [contradiction | simpl; lia]. }
  assert (len (Dsp.to_int16 (map (fun s => s * k) s4))
          = (2205 + len body + 2205)%Z) as Hlen.
  { unfold len, Dsp.to_int16, s4. rewrite !length_map, !length_app, HP. lia. }
  unfold finished. rewrite Hlen. split; [| split; [| split]].
  - unfold len in *. lia.
  - intros j Hj. rewrite nth_to_int16, nth_scaled. unfold s4.
    rewrite nth_padded, HP. case_decide; [| lia].
    unfold pad. rewrite nth_zeros, Rmult_0_l. apply quantize_zero.
  - intros j Hj. rewrite nth_to_int16, nth_scaled. unfold s4.
    rewrite nth_padded, HP. unfold len in Hj.
    repeat case_decide; try lia.
    unfold pad. rewrite nth_zeros, Rmult_0_l. apply quantize_zero.
  - unfold Dsp.to_int16. apply Forall_map, Forall_map.
    eapply Forall_impl; [exact Hb |].
    intros s Hs. simpl in *. apply quantize_within_peak.
    rewrite Rabs_mult, (Rabs_pos_eq k) by lra. exact Hs.
Qed.

End Process.

Section Sounds.
Import Generate.

Lemma process_empty : process [] = Raise IndexError.
Proof.
  unfold process, Dsp.lowpass.
  destruct (lowpass_alpha LOWPASS_HZ SR) as (Hrc & Hdt & Halpha).
  { unfold LOWPASS_HZ. lra. } { unfold SR. lra. }
  rewrite Hrc. cbn [bind]. rewrite Hdt. cbn [bind]. rewrite Halpha. cbn [bind].
  rewrite lowpass_stages_empty by (apply seqZ_nonempty; unfold LOWPASS_POLES; lia).
  reflexivity.
Qed.

(** X15: The chain end to end.  On a non-empty buffer process returns int16
    samples: 2205 zeros, at least one and at most len(input) + 85950
    samples, 2205 zeros; every value lies within -29490..29490, 0.9 of
    full scale.  On an empty buffer it raises the IndexError of lowpass. *)
Theorem process_end_to_end (samples : list R) :
  (samples <> [] ->
   exists out, process samples = Ok out /\ finished (len samples) out) /\
  process [] = Raise IndexError.
Proof. split; [apply process_spec | apply process_empty]. Qed.

Lemma process_end_to_end_witness :
  exists out, process [0.3; -0.2] = Ok out /\ finished 2 out.
Proof.
  destruct (process_end_to_end [0.3; -0.2]) as [H _].
  apply H. discriminate.
Defined.

Lemma synthesize_length (name : instrument) (freq duration_ms volume sr : R) :
  exists buf, synthesize name freq duration_ms volume sr = Ok buf /\
    len buf = Z.max 0 (int (sr * duration_ms / 1000)).
Proof.
  rewrite synthesize_closed. eexists. split; [reflexivity | apply len_map_seqZ].
Qed.

Lemma len_nonempty {A : Type} (l : list A) : (1 <= len l)%Z -> l <> [].
Proof. intros H ->. unfold len in H. simpl in H. lia. Qed.

Lemma len_empty {A : Type} (l : list A) : (len l <= 0)%Z -> l = [].
Proof. destruct l; [reflexivity |]. unfold len. simpl. lia. Qed.

(** X16: gen_single succeeds exactly when the note has at least one frame:
    with int(44100 * duration_ms / 1000) >= 1 it returns a finished sound
    for each of the five synths, and with fewer frames the empty note makes
    lowpass raise IndexError. *)
Theorem gen_single_needs_a_frame (name : instrument) (freq duration_ms volume : R) :
  let frames := int (SR * duration_ms / 1000) in
  ((1 <= frames)%Z ->
   exists out, gen_single (synthesize name) freq duration_ms volume = Ok out /\
     finished frames out) /\
  ((frames <= 0)%Z ->
   gen_single (synthesize name) freq duration_ms volume = Raise IndexError).
Proof.
  intros frames. unfold gen_single.
  destruct (synthesize_length name freq duration_ms volume SR) as (buf & Hbuf & Hlen).
  fold frames in Hlen. rewrite Hbuf. cbn [bind]. split; intros Hf.
  - destruct (process_spec buf) as (out & Hrun & Hfin).
    { apply len_nonempty. lia. }
    exists out. split; [exact Hrun |].
    replace frames with (len buf) by lia. exact Hfin.
  - rewrite (len_empty buf) by lia. apply process_empty.
Qed.

Lemma gen_single_needs_a_frame_witness :
  (exists out, gen_single (synthesize Bowl) 131 2000 0.18 = Ok out /\
     finished 88200 out) /\
  gen_single (synthesize Sine) 392 0.01 0.15 = Raise IndexError.
Proof.
  assert (int (SR * 2000 / 1000) = 88200%Z) as H1 by (unfold SR; apply int_floor_eq; lra).
  assert (int (SR * 0.01 / 1000) = 0%Z) as H2 by (unfold SR; apply int_floor_eq; lra).
  split.
  - destruct (gen_single_needs_a_frame Bowl 131 2000 0.18) as [H _].
    rewrite H1 in H. apply H. lia.
  - destruct (gen_single_needs_a_frame Sine 392 0.01 0.15) as [_ H].
    rewrite H2 in H. apply H. lia.
Defined.

Lemma chord_voices (name : instrument) (freqs : list R) (duration_ms v : R) :
  exists voices,
    mapM (fun f => synthesize name f duration_ms v SR) freqs = Ok voices /\
    length voices = length freqs /\
    Forall (fun w => len w = Z.max 0 (int (SR * duration_ms / 1000))) voices.
Proof.
  induction freqs as [| f freqs (voices & Hrun & Hlen & Hall)].
  - exists []. repeat split; constructor.
  - destruct (synthesize_length name f duration_ms v SR) as (buf & Hbuf & Hb).
    cbn [mapM]. rewrite Hbuf. cbn [bind]. rewrite Hrun. cbn [bind].
    exists (buf :: voices). split; [reflexivity |].
    split; [simpl; lia |]. constructor; assumption.
Qed.

(** X17: gen_chord: an empty list of frequencies raises ZeroDivisionError
    (the volume is divided by the number of voices); otherwise it succeeds
    exactly when the notes have at least one frame, and fails with the
    IndexError of lowpass on the empty mix when they have none. *)
Theorem gen_chord_outcomes (name : instrument) (freqs : list R)
  (duration_ms volume : R) :
  let frames := int (SR * duration_ms / 1000) in
  gen_chord (synthesize name) [] duration_ms volume = Raise ZeroDivisionError /\
  (freqs <> [] -> (1 <= frames)%Z ->
   exists out, gen_chord (synthesize name) freqs duration_ms volume = Ok out /\
     finished frames out) /\
  (freqs <> [] -> (frames <= 0)%Z ->
   gen_chord (synthesize name) freqs duration_ms volume = Raise IndexError).
Proof.
  intros frames. split.
  { unfold gen_chord, chord_mix, len. simpl. rewrite div_zero. reflexivity. }
  assert (freqs <> [] ->
          exists mixed, chord_mix (synthesize name) freqs duration_ms volume = Ok mixed /\
            len mixed = Z.max 0 frames) as Hmix.
  { intros Hne.
    destruct (chord_voices name freqs duration_ms (volume / IZR (len freqs)))
      as (voices & Hv & _ & Hall).
    destruct (chord_mix_spec (synthesize name) freqs duration_ms volume voices Hne Hv)
      as (mixed & Hrun & Hex & _).
    exists mixed. split; [exact Hrun |].
    apply Exists_exists in Hex as (w & Hw & Hlen).
    rewrite Forall_forall in Hall. apply Hall in Hw.
    fold frames in Hw. unfold len in *. lia. }
  unfold gen_chord. split; intros Hne Hf;
    destruct (Hmix Hne) as (mixed & Hrun & Hlen); rewrite Hrun; cbn [bind].
  - destruct (process_spec mixed) as (out & Hp & Hfin).
    { apply len_nonempty. lia. }
    exists out. split; [exact Hp |].
    replace frames with (len mixed) by lia. exact Hfin.
  - rewrite (len_empty mixed) by lia. apply process_empty.
Qed.

Lemma gen_chord_outcomes_witness :
  exists out, gen_chord (synthesize Bowl) [131; 165; 196] 1800 0.3 = Ok out /\
    finished 79380 out.
Proof.
  assert (int (SR * 1800 / 1000) = 79380%Z) as H1 by (unfold SR; apply int_floor_eq; lra).
  destruct (gen_chord_outcomes Bowl [131; 165; 196] 1800 0.3) as (_ & H & _).
  rewrite H1 in H. apply H; [discriminate | lia].
Defined.

End Sounds.

(** ** The sequencer *)

Section Sequence.
Import Generate.

Lemma item_first {A : Type} (x : A) (l : list A) : item (x :: l) 0 = Ok x.
Proof.
  unfold item. rewrite position_Ok by (unfold len; simpl; lia). reflexivity.
Qed.

Lemma item_last {A : Type} (l : list A) (x : A) :
  last l = Some x -> item l (-1) = Ok x.
Proof.
  intros Hlast. unfold item, position.
  assert (1 <= len l)%Z as Hlen.
  { destruct l; [discriminate |]. unfold len. simpl. lia. }
  destruct (decide (0 <= -1 < len l)%Z); [lia |].
  destruct (decide (- len l <= -1 < 0)%Z); [| lia].
  cbn [bind]. rewrite last_lookup in Hlast.
  replace (Z.to_nat (-1 + len l)) with (pred (length l)) by (unfold len; lia).
  rewrite Hlast. reflexivity.
Qed.

Lemma item_empty {A : Type} (k : Z) : item (@nil A) k = Raise IndexError.
Proof. unfold item. rewrite position_empty. reflexivity. Qed.

(** The guarded inner loop started at position [k]: every sample whose
    target index is inside [mixed] is added, the others are dropped, and
    nothing raises. *)
Lemma add_note_loop (offset : Z) (ns : list R) (k : Z) (mixed : list R) :
  (0 <= k + offset)%Z ->
  exists mixed',
    foldM (fun mixed '(i, s) =>
      if decide (i + offset < len mixed)%Z then additem mixed (i + offset) s
      else Ok mixed) mixed (enumerate_from k ns) = Ok mixed' /\
    length mixed' = length mixed /\
    forall j : nat, (j < length mixed)%nat ->
      nth j mixed' 0 =
      nth j mixed 0 +
      (if decide (k + offset <= Z.of_nat j < k + offset + len ns)%Z
       then nth (Z.to_nat (Z.of_nat j - (k + offset))) ns 0
       else 0).
Proof.
  revert k mixed. induction ns as [| s rest IH]; intros k mixed H0.
  - exists mixed. simpl. split; [reflexivity |]. split; [reflexivity |].
    intros j _. unfold len. simpl. case_decide; [lia | lra].
  - cbn [enumerate_from foldM].
    destruct (decide (k + offset < len mixed)%Z) as [Hin | Hout].
    + rewrite additem_Ok by lia. cbn [bind].
      set (n := Z.to_nat (k + offset)).
      set (m1 := <[n := nth n mixed 0 + s]> mixed).
      destruct (IH (k + 1)%Z m1) as (mixed' & Hrun & Hlen & Hnth); [lia |].
      assert (length m1 = length mixed) as Hl1 by apply length_insert.
      exists mixed'. split; [exact Hrun |]. split; [congruence |].
      intros j Hj. rewrite Hnth by lia. unfold len. simpl length.
      destruct (decide (j = n)) as [-> | Hne].
      * unfold m1. rewrite nth_insert_eq by (unfold len in Hin; lia).
        repeat case_decide; try lia.
        replace (Z.to_nat (Z.of_nat n - (k + offset))) with 0%nat by lia.
        simpl. lra.
      * unfold m1. rewrite nth_insert_ne by (intros E; apply Hne; symmetry; exact E).
        repeat case_decide; try lia; try lra.
        replace (Z.to_nat (Z.of_nat j - (k + offset)))
          with (S (Z.to_nat (Z.of_nat j - (k + 1 + offset)))) by lia.
        simpl. lra.
    + cbn [bind].
      destruct (IH (k + 1)%Z mixed) as (mixed' & Hrun & Hlen & Hnth); [lia |].
      exists mixed'. split; [exact Hrun |]. split; [exact Hlen |].
      intros j Hj. rewrite Hnth by lia. unfold len in *. simpl length.
      repeat case_decide; try lia; lra.
Qed.

Lemma add_note_spec (mixed : list R) (offset : Z) (ns : list R) :
  (0 <= offset)%Z ->
  exists mixed',
    add_note mixed offset ns = Ok mixed' /\
    length mixed' = length mixed /\
    forall j : nat, (j < length mixed)%nat ->
      nth j mixed' 0 = nth j mixed 0 + placed offset ns j.
Proof.
  intros H0. unfold add_note, enumerate.
  destruct (add_note_loop offset ns 0 mixed ltac:(lia))
    as (mixed' & Hrun & Hlen & Hnth).
  exists mixed'. split; [exact Hrun |]. split; [exact Hlen |].
  intros j Hj. rewrite Hnth by exact Hj. unfold placed.
  repeat case_decide; try lia; try reflexivity.
  rewrite (nth_overflow ns) by (unfold len in *; lia). reflexivity.
Qed.

(** The loop over the notes of a sequence, [stride] apart. *)
Lemma sequence_loop (stride : Z) (notes : list (list R)) (offset : Z)
  (mixed : list R) :
  (0 <= stride)%Z -> (0 <= offset)%Z ->
  exists mixed',
    foldM (fun (st : list R * Z) ns =>
      let '(mixed, offset) := st in
      bind (add_note mixed offset ns)
           (fun mixed => Ok (mixed, (offset + stride)%Z)))
      (mixed, offset) notes
    = Ok (mixed', (offset + stride * len notes)%Z) /\
    length mixed' = length mixed /\
    forall j : nat, (j < length mixed)%nat ->
      nth j mixed' 0 = nth j mixed 0 + staggered stride offset notes j.
Proof.
  intros Hs. revert offset mixed.
  induction notes as [| ns rest IH]; intros offset mixed H0.
  - exists mixed. cbn [foldM]. unfold len. simpl.
    split; [do 2 f_equal; lia |]. split; [reflexivity |]. intros j _. lra.
  - cbn [foldM].
    destruct (add_note_spec mixed offset ns H0) as (m1 & Hrun1 & Hlen1 & Hnth1).
    rewrite Hrun1. cbn [bind].
    destruct (IH (offset + stride)%Z m1 ltac:(lia)) as (mixed' & Hrun & Hlen & Hnth).
    exists mixed'. split.
    { rewrite Hrun. do 2 f_equal. unfold len. simpl length. lia. }
    split; [congruence |].
    intros j Hj. rewrite Hnth by lia. rewrite Hnth1 by exact Hj. simpl. lra.
Qed.

(** Past the end of the last note nothing is placed. *)
Lemma staggered_beyond (stride L : Z) (notes : list (list R)) (offset : Z) (j : nat) :
  (0 <= stride)%Z -> Forall (fun w => len w = L) notes ->
  (offset + stride * (len notes - 1) + L <= Z.of_nat j)%Z ->
  staggered stride offset notes j = 0.
Proof.
  intros Hs Hall. revert offset.
  induction Hall as [| w rest Hw _ IH]; intros offset Hj; simpl; [reflexivity |].
  unfold len in Hj. simpl length in Hj.
  rewrite IH by (unfold len; nia).
  unfold placed. case_decide; [| lra].
  rewrite nth_overflow by (unfold len in Hw; nia). lra.
Qed.

(** What [sequence_mix] builds with one of the five synths. *)
Lemma sequence_mix_spec (name : instrument) (notes : list R)
  (gap_ms duration_ms volume : R) :
  notes <> [] -> 0 <= gap_ms ->
  let L := Z.max 0 (int (SR * duration_ms / 1000)) in
  let stride := (Z.max (L / 3) 1 + int (SR * gap_ms / 1000))%Z in
  exists voices mixed,
    mapM (fun f => synthesize name f duration_ms volume SR) notes = Ok voices /\
    Forall (fun w => len w = L) voices /\
    sequence_mix (synthesize name) notes gap_ms duration_ms volume = Ok mixed /\
    (1 <= stride)%Z /\
    len mixed = (stride * (len notes - 1) + L + 22050)%Z /\
    forall j : nat, nth j mixed 0 = staggered stride 0 voices j.
Proof.
  intros Hne Hgap L stride.
  destruct (chord_voices name notes duration_ms volume) as (voices & Hv & Hlenv & Hall).
  fold L in Hall.
  assert (0 <= int (SR * gap_ms / 1000))%Z as Hg.
  { apply int_nonneg_le. unfold SR. lra. }
  assert (1 <= stride)%Z as Hstride by (unfold stride; lia).
  assert (int (SR * 0.5) = 22050%Z) as Hhalf by (unfold SR; apply int_floor_eq; lra).
  exists voices. unfold sequence_mix. rewrite Hv. cbn [bind].
  destruct voices as [| first rest] eqn:Ev.
  { destruct notes; [contradiction | discriminate]. }
  rewrite item_first. cbn [bind].
  destruct (last (first :: rest)) as [final |] eqn:Hlast.
  2: { apply last_None in Hlast. discriminate. }
  rewrite (item_last _ _ Hlast). cbn [bind].
  assert (len first = L) as Hfirst by (inversion Hall; assumption).
  assert (len final = L) as Hfinal.
  { rewrite Forall_forall in Hall. apply Hall. apply last_Some_elem_of. exact Hlast. }
  rewrite Hfirst, Hfinal, Hhalf. fold stride.
  set (total := (stride * (len notes - 1) + L + 22050)%Z).
  assert (0 <= total)%Z as Htot.
  { unfold total, L, len. destruct notes; [contradiction |]. simpl length. nia. }
  destruct (sequence_loop stride (first :: rest) 0 (zeros total))
    as (mixed & Hrun & Hlen & Hnth); [lia | lia |].
  exists mixed. split; [reflexivity |]. split; [exact Hall |].
  split; [rewrite Hrun; reflexivity |]. split; [exact Hstride |].
  assert (len mixed = total) as Hm.
  { unfold len in *. rewrite Hlen. unfold zeros. rewrite length_replicate. lia. }
  split; [exact Hm |].
  intros j. destruct (decide (j < length (zeros total))%nat) as [Hj | Hj].
  - rewrite Hnth by exact Hj. rewrite nth_zeros. lra.
  - rewrite nth_overflow by lia. symmetry.
    apply staggered_beyond with L; [lia | exact Hall |].
    assert (len (first :: rest) = len notes) as Hn by (unfold len; rewrite Hlenv; reflexivity).
    rewrite Hn. unfold zeros in Hj. rewrite length_replicate in Hj.
    unfold total in *. lia.
Qed.

(** X18: The sequence mixer with one of the five synths, for at least one
    note and gap_ms >= 0: every note has L = max(0, int(44100 *
    duration_ms / 1000)) samples, the notes are placed
    stride = max(L // 3, 1) + int(44100 * gap_ms / 1000) frames apart from
    index 0, the buffer has stride * (n - 1) + L + 22050 samples, each of
    its samples is the sum of the notes' samples placed there, so no note
    is cut short, and the last 22050 samples are zeros. *)
Theorem sequence_mix_places_notes (name : instrument) (notes : list R)
  (gap_ms duration_ms volume : R) :
  notes <> [] -> 0 <= gap_ms ->
  let L := Z.max 0 (int (SR * duration_ms / 1000)) in
  let stride := (Z.max (L / 3) 1 + int (SR * gap_ms / 1000))%Z in
  exists voices mixed,
    Forall2 (fun f w => synthesize name f duration_ms volume SR = Ok w) notes voices /\
    Forall (fun w => len w = L) voices /\
    sequence_mix (synthesize name) notes gap_ms duration_ms volume = Ok mixed /\
    len mixed = (stride * (len notes - 1) + L + 22050)%Z /\
    (forall j : nat, nth j mixed 0 = staggered stride 0 voices j) /\
    (forall j : nat, (len mixed - 22050 <= Z.of_nat j)%Z -> nth j mixed 0 = 0).
Proof.
  intros Hne Hgap L stride.
  destruct (sequence_mix_spec name notes gap_ms duration_ms volume Hne Hgap)
    as (voices & mixed & Hv & Hall & Hrun & Hstride & Hlen & Hnth).
  assert (1 <= stride)%Z as Hs by exact Hstride.
  assert (len mixed = (stride * (len notes - 1) + L + 22050)%Z) as Hl by exact Hlen.
  assert (Forall (fun w => len w = L) voices) as Ha by exact Hall.
  assert (forall j : nat, nth j mixed 0 = staggered stride 0 voices j) as Hn
    by exact Hnth.
  clear Hstride Hlen Hall Hnth.
  rename Hl into Hlen, Ha into Hall, Hn into Hnth.
  exists voices, mixed. split; [apply mapM_Ok, Hv |].
  split; [exact Hall |]. split; [exact Hrun |]. split; [exact Hlen |].
  split; [exact Hnth |].
  intros j Hj. rewrite Hnth. apply staggered_beyond with L; [lia | exact Hall |].
  apply mapM_length in Hv.
  replace (len voices) with (len notes) by (unfold len; rewrite Hv; reflexivity).
  lia.
Qed.

Lemma sequence_mix_places_notes_witness :
  exists mixed,
    sequence_mix (synthesize Glockenspiel) [262; 131] 200 600 0.25 = Ok mixed /\
    len mixed = 66150%Z.
Proof.
  assert (int (SR * 600 / 1000) = 26460%Z) as HL by (unfold SR; apply int_floor_eq; lra).
  assert (int (SR * 200 / 1000) = 8820%Z) as Hg by (unfold SR; apply int_floor_eq; lra).
  destruct (sequence_mix_places_notes Glockenspiel [262; 131] 200 600 0.25)
    as (voices & mixed & _ & _ & Hrun & Hlen & _); [discriminate | lra |].
  exists mixed. split; [exact Hrun |].
  rewrite Hlen, HL, Hg. reflexivity.
Defined.

(** X19: gen_sequence returns a finished sound for every non-empty list of
    notes and every gap_ms >= 0, even when the notes have no frame at all
    (the half second of headroom keeps the mix non-empty); an empty list
    of notes raises IndexError at note_samples[0]. *)
Theorem gen_sequence_outcomes (name : instrument) (notes : list R)
  (gap_ms duration_ms volume : R) :
  let L := Z.max 0 (int (SR * duration_ms / 1000)) in
  let stride := (Z.max (L / 3) 1 + int (SR * gap_ms / 1000))%Z in
  (notes <> [] -> 0 <= gap_ms ->
   exists out,
     gen_sequence (synthesize name) notes gap_ms duration_ms volume = Ok out /\
     finished (stride * (len notes - 1) + L + 22050) out) /\
  gen_sequence (synthesize name) [] gap_ms duration_ms volume = Raise IndexError.
Proof.
  intros L stride. split.
  - intros Hne Hgap.
    destruct (sequence_mix_spec name notes gap_ms duration_ms volume Hne Hgap)
      as (voices & mixed & _ & _ & Hrun & Hstride & Hlen & _).
    assert (1 <= stride)%Z as Hs by exact Hstride.
    assert (len mixed = (stride * (len notes - 1) + L + 22050)%Z) as Hl by exact Hlen.
    clear Hstride Hlen. rename Hl into Hlen.
    unfold gen_sequence. rewrite Hrun. cbn [bind].
    destruct (process_spec mixed) as (out & Hp & Hfin).
    { apply len_nonempty. rewrite Hlen. unfold L, len.
      destruct notes; [contradiction |]. simpl length. nia. }
    exists out. split; [exact Hp |]. rewrite <- Hlen. exact Hfin.
  - unfold gen_sequence, sequence_mix. cbn [mapM bind].
    rewrite item_empty. reflexivity.
Qed.

Lemma gen_sequence_outcomes_witness :
  exists out,
    gen_sequence (synthesize Marimba) [392; 392; 392; 440] 40 150 0.2 = Ok out /\
    finished 40572 out.
Proof.
  assert (int (SR * 150 / 1000) = 6615%Z) as HL by (unfold SR; apply int_floor_eq; lra).
  assert (int (SR * 40 / 1000) = 1764%Z) as Hg by (unfold SR; apply int_floor_eq; lra).
  destruct (gen_sequence_outcomes Marimba [392; 392; 392; 440] 40 150 0.2) as [H _].
  rewrite HL, Hg in H. apply H; [discriminate | lra].
Defined.

End Sequence.

(** ** The notes' first sample and their headroom *)

Section Notes.
Import Generate.

Lemma sample_zero_at_start (name : instrument) (freq duration_ms volume sr : R) :
  sample name freq duration_ms volume sr 0 = 0.
Proof.
  assert (forall x, sin (x * (0 / sr)) = 0) as Hsin.
  { intros x. replace (x * (0 / sr)) with 0 by (unfold Rdiv; ring). apply sin_0. }
  unfold sample, linear_release, unreleased, linear_attack, partial_sum.
  destruct name; cbn [foldl]; rewrite ?Hsin; repeat case_decide; ring.
Qed.

(** X20: Every note starts at exactly zero: the first sample of each of the
    five synths is 0 whenever the note has at least one frame, since
    every partial is a sine of phase 0 there. *)
Theorem note_starts_at_zero (name : instrument) (freq duration_ms volume sr : R) :
  (1 <= int (sr * duration_ms / 1000))%Z ->
  exists buf,
    synthesize name freq duration_ms volume sr = Ok buf /\
    head buf = Some 0.
Proof.
  intros Hf. rewrite synthesize_closed. eexists. split; [reflexivity |].
  rewrite seqZ_cons by lia. simpl. rewrite sample_zero_at_start. reflexivity.
Qed.

Lemma note_starts_at_zero_witness :
  exists buf, synthesize Marimba 392 150 0.2 44100 = Ok buf /\ head buf = Some 0.
Proof.
  apply note_starts_at_zero.
  replace (int (44100 * 150 / 1000)) with 6615%Z; [lia |].
  symmetry. apply int_floor_eq; lra.
Defined.

Lemma abs_add (a b A B : R) : Rabs a <= A -> Rabs b <= B -> Rabs (a + b) <= A + B.
Proof. intros Ha Hb. eapply Rle_trans; [apply Rabs_triang | lra]. Qed.

Lemma abs_scale (x g X : R) : Rabs x <= X -> Rabs g <= 1 -> Rabs (x * g) <= X.
Proof.
  intros Hx Hg. rewrite Rabs_mult.
  pose proof (Rabs_pos x). pose proof (Rabs_pos g). nra.
Qed.

Lemma abs_sin (x : R) : Rabs (sin x) <= 1.
Proof. apply Rabs_le. pose proof (SIN_bound x). lra. Qed.

Lemma abs_cos_attack (x : R) : Rabs (0.5 * (1 - cos x)) <= 1.
Proof. apply Rabs_le. pose proof (COS_bound x). lra. Qed.

Lemma exp_decay (dr t : R) : 0 <= dr -> 0 <= t -> Rabs (exp (- dr * t)) <= 1.
Proof.
  intros Hd Ht. rewrite Rabs_pos_eq by (left; apply exp_pos).
  rewrite <- exp_0. destruct (Req_dec (- dr * t) 0) as [-> | Hne]; [lra |].
  left. apply exp_increasing. nra.
Qed.

(** One partial: amplitude times a sine times a decay. *)
Lemma abs_partial (amp x dr t : R) :
  0 <= amp -> 0 <= dr -> 0 <= t ->
  Rabs (amp * sin x * exp (- dr * t)) <= amp.
Proof.
  intros Ha Hd Ht. apply abs_scale; [| apply exp_decay; assumption].
  rewrite <- (Rmult_1_r amp) at 2. rewrite Rabs_mult, (Rabs_pos_eq amp) by exact Ha.
  pose proof (abs_sin x). nra.
Qed.

Lemma abs_linear_attack (a i : Z) (s S : R) :
  (0 <= i)%Z -> Rabs s <= S -> Rabs (linear_attack a i s) <= S.
Proof.
  intros Hi Hs. unfold linear_attack. case_decide as Hlt; [| exact Hs].
  apply abs_scale; [exact Hs |].
  assert (0 < IZR a) by (apply IZR_lt; lia).
  assert (0 <= IZR i < IZR a) by (split; [apply IZR_le | apply IZR_lt]; lia).
  rewrite Rabs_pos_eq.
  - apply Rmult_le_reg_r with (IZR a); [lra |].
    unfold Rdiv. rewrite Rmult_assoc, Rinv_l by lra. lra.
  - apply Rmult_le_pos; [lra | left; apply Rinv_0_lt_compat; lra].
Qed.

Lemma abs_cosine_attack (a i : Z) : Rabs (cosine_attack a i) <= 1.
Proof.
  unfold cosine_attack. case_decide; [apply abs_cos_attack |].
  rewrite Rabs_R1. lra.
Qed.

Lemma abs_linear_release (sr : R) (i frames : Z) (s S : R) :
  (i < frames)%Z -> Rabs s <= S -> Rabs (linear_release sr i frames s) <= S.
Proof.
  intros Hi Hs. unfold linear_release. case_decide as Hgt; [| exact Hs].
  apply abs_scale; [exact Hs |].
  set (a := int (sr * 60 / 1000)) in *.
  assert (0 < IZR a) by (apply IZR_lt; lia).
  assert (0 <= IZR (frames - i) < IZR a) by (split; [apply IZR_le | apply IZR_lt]; lia).
  rewrite Rabs_pos_eq.
  - apply Rmult_le_reg_r with (IZR a); [lra |].
    unfold Rdiv. rewrite Rmult_assoc, Rinv_l by lra. lra.
  - apply Rmult_le_pos; [lra | left; apply Rinv_0_lt_compat; lra].
Qed.

Lemma abs_volume (x X volume : R) :
  Rabs x <= X -> Rabs (x * volume) <= X * Rabs volume.
Proof.
  intros Hx. rewrite Rabs_mult. pose proof (Rabs_pos volume). nra.
Qed.

Lemma abs_zero : Rabs 0 <= 0.
Proof. rewrite Rabs_R0. lra. Qed.

(** The sample before the release stays within the headroom. *)
Lemma unreleased_bound (name : instrument) (freq volume sr : R) (i : Z) :
  0 < sr -> (0 <= i)%Z ->
  Rabs (unreleased name freq volume sr i) <= headroom name * Rabs volume.
Proof.
  intros Hsr Hi.
  assert (0 <= IZR i / sr) as Ht.
  { apply Rmult_le_pos; [apply IZR_le; lia | left; apply Rinv_0_lt_compat, Hsr]. }
  set (t := IZR i / sr) in *.
  unfold unreleased, headroom. fold t. destruct name.
  - apply abs_volume. apply abs_linear_attack; [exact Hi |].
    unfold partial_sum. cbn [foldl].
    eapply Rle_trans;
      [repeat (apply abs_add; [| apply abs_partial; [lra | lra | exact Ht]]);
       apply abs_zero | lra].
  - unfold linear_attack. case_decide as Hlt.
    + rewrite Rmult_assoc, (Rmult_comm volume), <- Rmult_assoc.
      apply abs_volume.
      pose proof (abs_linear_attack (int (sr * 60 / 1000)) i
                    (sin (2 * PI * freq * t)) 1 Hi (abs_sin _)) as H.
      unfold linear_attack in H.
      destruct (decide (i < int (sr * 60 / 1000))%Z); [exact H | contradiction].
    + apply abs_volume, abs_sin.
  - apply abs_volume. apply abs_linear_attack; [exact Hi |].
    unfold partial_sum. cbn [foldl].
    eapply Rle_trans;
      [repeat (apply abs_add; [| apply abs_partial; [lra | lra | exact Ht]]);
       apply abs_zero | lra].
  - apply abs_volume. apply abs_scale.
    + eapply Rle_trans;
        [repeat (apply abs_add;
                 [| rewrite Rabs_mult;
                    match goal with |- Rabs ?c * Rabs (sin ?x) <= _ =>
                      rewrite (Rabs_pos_eq c) by lra;
                      pose proof (abs_sin x);
                      apply (Rmult_le_compat_l c _ 1); [lra | assumption]
                    end]);
         apply abs_zero | lra].
    + rewrite <- (Rmult_1_r 1). rewrite Rabs_mult.
      pose proof (exp_decay 0.5 t ltac:(lra) Ht) as He.
      pose proof (abs_cosine_attack (int (sr * 120 / 1000)) i) as Hc.
      pose proof (Rabs_pos (exp (- (0.5) * t))).
      pose proof (Rabs_pos (cosine_attack (int (sr * 120 / 1000)) i)).
      nra.
  - apply abs_volume. apply abs_scale; [| apply abs_cosine_attack].
    cbn [foldl].
    assert (forall amp x dr, 0 <= amp -> 0 <= dr ->
              Rabs (amp * sin x * exp (- dr * t)
                    * (1 + 0.06 * sin (2 * PI * 4.1 * t))) <= amp * 1.06) as Hp.
    { intros amp x dr Ha Hd. rewrite Rabs_mult.
      pose proof (abs_partial amp x dr t Ha Hd Ht) as H1.
      assert (Rabs (1 + 0.06 * sin (2 * PI * 4.1 * t)) <= 1.06) as H2.
      { apply Rabs_le. pose proof (SIN_bound (2 * PI * 4.1 * t)). lra. }
      pose proof (Rabs_pos (amp * sin x * exp (- dr * t))).
      pose proof (Rabs_pos (1 + 0.06 * sin (2 * PI * 4.1 * t))).
      nra. }
    eapply Rle_trans;
      [repeat (apply abs_add; [| apply Hp; lra]); apply abs_zero | lra].
Qed.

(** X21: Headroom: with a sample rate > 0 every sample of a note has absolute
    value at most the sum of the instrument's partial amplitudes times
    |volume|: 1.73 for glockenspiel, 1 for sine, 1.38 for marimba, 1.12
    for ambient and 1.6536 for bowl. *)
Theorem note_within_headroom (name : instrument) (freq duration_ms volume sr : R) :
  0 < sr ->
  exists buf,
    synthesize name freq duration_ms volume sr = Ok buf /\
    Forall (fun s => Rabs s <= headroom name * Rabs volume) buf.
Proof.
  intros Hsr. rewrite synthesize_closed. eexists. split; [reflexivity |].
  apply Forall_map. apply Forall_seqZ. intros i Hi. simpl.
  pose proof (unreleased_bound name freq volume sr i Hsr ltac:(lia)) as Hu.
  assert (name <> Sine ->
          Rabs (unreleased name freq volume sr i
                * release_gain i (int (sr * duration_ms / 1000)))
          <= headroom name * Rabs volume) as Hrel.
  { intros _. apply abs_scale; [exact Hu |].
    pose proof (release_gain_range i (int (sr * duration_ms / 1000)) ltac:(lia)).
    rewrite Rabs_pos_eq; lra. }
  unfold sample. destruct name; try (apply Hrel; discriminate).
  apply abs_linear_release; [lia | exact Hu].
Qed.

Lemma note_within_headroom_witness :
  exists buf,
    synthesize Glockenspiel 147 700 0.22 44100 = Ok buf /\
    Forall (fun s => Rabs s <= 1.73 * Rabs 0.22) buf.
Proof. apply (note_within_headroom Glockenspiel 147 700 0.22 44100). lra. Defined.

End Notes.

(** ** The reverb's tail and the order of its taps *)

Section ReverbMore.

Lemma Rsum_zero (l : list R) : Forall (fun x => x = 0) l -> Rsum l = 0.
Proof. induction 1 as [| x l -> _ IH]; simpl; [reflexivity | rewrite IH; lra]. Qed.


(** X22: The tail is silence: past len(input) + max(delay frames) every
    output sample of reverb is exactly 0, so tail_s only appends zeros
    (which trim_silence is there to remove). *)
Theorem reverb_tail_is_silent (samples : list R) (sr decay : R)
  (delays_ms : list R) (tail_s : R) :
  0 < sr -> 0 < decay -> delays_ms <> [] ->
  Forall (fun d_ms => 0 <= d_ms) delays_ms -> hd 0 delays_ms <> 0 ->
  0 <= tail_s ->
  exists out,
    Dsp.reverb samples sr decay delays_ms tail_s = Ok out /\
    forall j : nat,
      (len out - int (sr * tail_s) <= Z.of_nat j)%Z -> nth j out 0 = 0.
Proof.
  intros Hsr Hdecay Hne Hpos Hfirst Htail.
  destruct (reverb_spec samples sr decay delays_ms Hsr Hdecay Hfirst tail_s
              Hne Hpos Htail)
    as (out & max_delay & Hrun & Hall & Hex & Hlen & Hnth).
  assert (0 <= max_delay)%Z as Hmax.
  { apply Exists_exists in Hex as (x & Hx & <-).
    rewrite Forall_forall in Hpos. apply Hpos in Hx.
    apply int_nonneg_le. apply Rmult_le_pos; [nra | lra]. }
  exists out. split; [exact Hrun |]. intros j Hj. rewrite Hnth.
  rewrite nth_overflow by (unfold len in *; lia).
  rewrite Rsum_zero; [lra |].
  apply Forall_map. eapply Forall_impl; [exact Hall |].
  intros d_ms Hd. simpl in *. unfold echo. case_decide; [| reflexivity].
  rewrite nth_overflow by (unfold len in *; lia). lra.
Qed.

Lemma reverb_tail_is_silent_witness :
  exists out,
    Dsp.reverb [1; 0.5] 44100 0.5 [41; 89] 1.5 = Ok out /\
    nth 4000 out 0 = 0.
Proof.
  assert (int (44100 * 1.5) = 66150%Z) as Ht by (apply int_floor_eq; lra).
  destruct (reverb_tail_is_silent [1; 0.5] 44100 0.5 [41; 89] 1.5)
    as (out & Hrun & Hz); [lra | lra | discriminate | | simpl; lra | lra |].
  { repeat (constructor; [lra |]). constructor. }
  exists out. split; [exact Hrun |]. apply Hz.
  destruct (reverb_spec [1; 0.5] 44100 0.5 [41; 89] ltac:(lra) ltac:(lra)
              ltac:(simpl; lra) 1.5 ltac:(discriminate)
              ltac:(repeat (constructor; [lra |]); constructor) ltac:(lra))
    as (out' & max_delay & Hrun' & Hall & Hex & Hlen & _).
  rewrite Hrun in Hrun'. injection Hrun' as <-.
  assert (int (44100 * 89 / 1000) = 3924%Z) as H89 by (apply int_floor_eq; lra).
  assert (int (44100 * 41 / 1000) = 1808%Z) as H41 by (apply int_floor_eq; lra).
  apply Exists_exists in Hex as (x & Hx & Heq).
  apply list_elem_of_In in Hx. simpl in Hx.
  rewrite Hlen, Ht. unfold len. simpl length.
  destruct Hx as [<- | [<- | []]]; lia.
Defined.



End ReverbMore.

(** ** The release helper on its own *)

Section NoteFadeout.

(** X24: _note_fadeout raises ZeroDivisionError exactly when frames = 0 and
    i >= 0; the synths, which call it with 0 <= i < frames, cannot reach
    that. *)
Theorem note_fadeout_division (i frames : Z) :
  Synth._note_fadeout i frames = Raise ZeroDivisionError <->
  (frames = 0 /\ 0 <= i)%Z.
Proof.
  unfold Synth._note_fadeout, div.
  assert (frames - int (IZR frames * 0.85) = 0 <-> frames = 0)%Z as Hden.
  { split.
    - intros E. destruct (Z.lt_trichotomy frames 0) as [Hn | [H0 | Hp]];
        [| exact H0 |].
      + exfalso. assert (IZR frames < 0) as Hf by (apply IZR_lt; lia).
        destruct (int_bounds_neg (IZR frames * 0.85) ltac:(lra)) as (_ & _ & Hhi).
        assert (IZR frames < IZR (int (IZR frames * 0.85))) as Hlt by lra.
        apply lt_IZR in Hlt. lia.
      + exfalso. pose proof (fade_start_lt frames ltac:(lia)). lia.
    - intros ->. replace (0 * 0.85) with (IZR 0) by (simpl; ring).
      rewrite int_IZR. reflexivity. }
  split.
  - case_decide as Hge; [| discriminate].
    case_decide as Hz; [| discriminate]. intros _.
    apply eq_IZR in Hz. apply Hden in Hz. subst frames. split; [reflexivity |].
    replace (IZR 0 * 0.85) with (IZR 0) in Hge by (simpl; ring).
    rewrite int_IZR in Hge. lia.
  - intros [-> Hi]. replace (IZR 0 * 0.85) with (IZR 0) by (simpl; ring).
    rewrite int_IZR. case_decide; [| lia].
    case_decide as Hz; [reflexivity |]. exfalso. apply Hz. reflexivity.
Qed.

End NoteFadeout.
